(** * mvk_prompts_fast_api: the session store and the user pipeline

    The development embeds these pieces of the repository:

    - [ConversationStore]: the module-level dictionary [store] and
      [get_session_history] of
      [State/003_Fast_01_InMemoeryCMH/app/api/api_state/api_buffer_memory.py];
    - [Users.MapUser]: [UserItemToEntity] and [UserEntityToItem] of
      [State/003_Fast_01_InMemoeryCMH/app/dal/utilities/module/map_user.py];
    - [Users.UserValidationUtility]: [validate_user_request] and
      [validate_user_model] of
      [State/004_Fast_01_future_annotations/app/common/modules/users/user_validation_utility.py];
    - [Users.UserService], [Users.UserRepository], [Users.ApiUser]: the
      service of [State/002_Fast_01_BufferMemory/app/services/user_service.py],
      the repository of
      [State/003_Fast_01_InMemoeryCMH/app/dal/repositories/user_repository.py]
      and the create handler of
      [State/004_Fast_01_future_annotations/app/api/api_mange_user/api_user.py].

    Python objects that are shared and mutated (the chat histories held by
    [store]) live in an explicit heap and are named by references, so that
    "the same object" and "a copy" are different things in the model. *)

From Stdlib Require Import ZArith.
From stdpp Require Import gmap strings list fin_maps.

(** ** The session store *)

Module ConversationStore.

(** Modelled from the spec: the message record [{role, content}] with
    [role] one of system, user, assistant. The class of the messages a
    history holds belongs to the chat library and is not under src/. *)
Inductive Role := system | user | assistant.

Record Message := { role : Role; content : string }.

#[global] Instance Role_eq_dec : EqDecision Role.
Proof. solve_decision. Defined.

#[global] Instance Message_eq_dec : EqDecision Message.
Proof. solve_decision. Defined.

(** The identity of an [InMemoryChatMessageHistory] object: its index in
    the heap, in order of creation. *)
Abbreviation ref := nat (only parsing).

(** The process state the component touches: the dictionary [store]
    (session id to history object) and the heap holding, for each history
    object ever constructed, its [messages] list. *)
Record State := {
  store : gmap string ref;
  heap : list (list Message)
}.

(** [store = {}] at module load (line 44); no history exists yet. *)
Definition initial : State := {| store := ∅; heap := [] |}.

(** What a dictionary subscript raises on a missing key. *)
Inductive exn := KeyError (k : string).

(** Statements run in a state and either raise or return a value and the
    state they leave. *)
Definition M (A : Type) : Type := State → exn + (A * State).

#[global] Instance M_ret : MRet M := λ A x st, inr (x, st).

#[global] Instance M_bind : MBind M := λ A B f m st,
  match m st with
  | inl e => inl e
  | inr (x, st') => f x st'
  end.

(** [k in store] *)
Definition dict_contains (k : string) : M bool := λ st,
  inr (bool_decide (is_Some (store st !! k)), st).

(** [store[k] = h] *)
Definition dict_setitem (k : string) (h : ref) : M unit := λ st,
  inr ((), {| store := <[k := h]> (store st); heap := heap st |}).

(** [store[k]], raising [KeyError] when [k] is missing *)
Definition dict_getitem (k : string) : M ref := λ st,
  match store st !! k with
  | Some h => inr (h, st)
  | None => inl (KeyError k)
  end.

(** [InMemoryChatMessageHistory()]: a new object, distinct from every
    object constructed before, whose [messages] list is empty. *)
Definition InMemoryChatMessageHistory : M ref := λ st,
  inr (length (heap st), {| store := store st; heap := heap st ++ [[]] |}).

(** Lines 45-48:
<<
def get_session_history(session_id:str):
    if session_id not in store:
        store[session_id] = InMemoryChatMessageHistory()
    return store[session_id]
>> *)
Definition get_session_history (session_id : string) : M ref :=
  present ← dict_contains session_id;
  (if negb present
   then h ← InMemoryChatMessageHistory; dict_setitem session_id h
   else mret ());;
  dict_getitem session_id.

(** The messages of the history object [h], when [h] exists. *)
Definition messages (h : ref) (st : State) : option (list Message) :=
  heap st !! h.

(** [h.messages.append(m)]: the list of the object [h] grows at its end;
    every other object is left as it is. *)
Definition add_message (h : ref) (m : Message) : M unit := λ st,
  inr ((), {| store := store st; heap := alter (λ t, t ++ [m]) h (heap st) |}).

(** Modelled from the spec: [append(session_id, role, content)], the
    convenience wrapper that fetches (or creates) the transcript of
    [session_id] and appends the message record at its end. No such
    function is under src/; it is composed here from
    [get_session_history] and the history's list append. *)
Definition append (session_id : string) (r : Role) (c : string) : M unit :=
  h ← get_session_history session_id;
  add_message h {| role := r; content := c |}.

(** The transcript a session id stands for: the messages of the object
    stored under it, empty when there is none yet. *)
Definition transcript (s : string) (st : State) : list Message :=
  default [] (h ← store st !! s; messages h st).

(** *** Operations and the states they reach *)

(** The two operations of the component, as request handlers issue them. *)
Inductive op :=
| GetOrCreate (session_id : string)
| Append (session_id : string) (r : Role) (c : string).

(** The session id an operation is about. *)
Definition session_of (o : op) : string :=
  match o with GetOrCreate s | Append s _ _ => s end.

Definition run_op (o : op) : M unit :=
  match o with
  | GetOrCreate s => get_session_history s;; mret ()
  | Append s r c => append s r c
  end.

Fixpoint run_ops (os : list op) : M unit :=
  match os with
  | [] => mret ()
  | o :: os' => run_op o;; run_ops os'
  end.

(** A state of the running process: what some sequence of operations
    leaves, starting from the freshly loaded module. *)
Definition reachable (st : State) : Prop :=
  ∃ os, run_ops os initial = inr ((), st).

(** *** Invariants *)

(** Every object the dictionary refers to exists. *)
Definition closed (st : State) : Prop :=
  ∀ s h, store st !! s = Some h → h < length (heap st).

(** No history object is stored under two session ids. *)
Definition unshared (st : State) : Prop :=
  ∀ s1 s2 h, store st !! s1 = Some h → store st !! s2 = Some h → s1 = s2.

(** As many history objects were constructed as there are session ids:
    with [closed] and [unshared], each id has the one object constructed
    for it, and each object constructed belongs to one id. *)
Definition created_once (st : State) : Prop :=
  size (store st) = length (heap st).

Definition store_inv (st : State) : Prop :=
  closed st ∧ unshared st ∧ created_once st.

(** *** Callers preempted between statements *)

(** Where one caller of [get_session_history] stands: before one of the
    three statements of the body (lines 46, 47, 48), or finished. *)
Inductive pc :=
| AtTest
| AtCreate
| AtReturn
| Returned (h : ref)
| Raised (e : exn).

#[global] Instance exn_eq_dec : EqDecision exn.
Proof. solve_decision. Defined.

#[global] Instance pc_eq_dec : EqDecision pc.
Proof. solve_decision. Defined.

(** One statement of one caller, run on the shared state. *)
Definition step_caller (session_id : string) (p : pc) (st : State) : pc * State :=
  match p with
  | AtTest =>
      match dict_contains session_id st with
      | inr (present, st') => (if negb present then AtCreate else AtReturn, st')
      | inl e => (Raised e, st)
      end
  | AtCreate =>
      match (h ← InMemoryChatMessageHistory; dict_setitem session_id h) st with
      | inr (_, st') => (AtReturn, st')
      | inl e => (Raised e, st)
      end
  | AtReturn =>
      match dict_getitem session_id st with
      | inr (h, st') => (Returned h, st')
      | inl e => (Raised e, st)
      end
  | Returned _ | Raised _ => (p, st)
  end.

(** The callers and the state they share. *)
Definition config : Type := list pc * State.

(** Caller [i] runs its next statement. *)
Definition step (session_id : string) (i : nat) (c : config) : config :=
  match c.1 !! i with
  | Some p =>
      let '(p', st') := step_caller session_id p c.2 in (<[i := p']> c.1, st')
  | None => c
  end.

(** A schedule names, turn by turn, the caller that runs. *)
Definition run_schedule (session_id : string) (sched : list nat) (c : config) : config :=
  foldl (λ c i, step session_id i c) c sched.

(** [n] callers, all about to enter the function. *)
Definition callers (n : nat) : list pc := replicate n AtTest.

(** The schedule in which the callers of [order] run one after another,
    each through its three statements without interruption. *)
Definition one_at_a_time (order : list nat) : list nat :=
  order ≫= λ i, [i; i; i].

(** The history objects the callers hold once they have returned. *)
Definition results (cs : list pc) : list ref :=
  omap (λ p, match p with Returned h => Some h | _ => None end) cs.

Definition all_returned (cs : list pc) : Prop :=
  Forall (λ p, ∃ h, p = Returned h) cs.

(** What "exactly one transcript instance ends up stored, no duplicate
    creation" asks of [n] callers of [get_session_history session_id]
    run under the schedule [sched] from the state [st]: once all have
    returned, one history object was constructed, and it is the object
    stored under the id and the object every caller holds. *)
Definition creates_exactly_one
    (n : nat) (session_id : string) (st : State) (sched : list nat) : Prop :=
  let c := run_schedule session_id sched (callers n, st) in
  all_returned c.1 →
  length (heap c.2) = S (length (heap st)) ∧
  ∀ h, h ∈ results c.1 → store c.2 !! session_id = Some h.

(** The callers that have not yet passed line 47: each of them may
    still construct a history object. *)
Definition may_create (p : pc) : nat :=
  match p with
  | AtTest | AtCreate => 1
  | _ => 0
  end.

Definition pending (cs : list pc) : nat := sum_list (may_create <$> cs).

(** The callers that found the id missing and have not inserted yet:
    each of them constructs a history object at its next turn. *)
Definition will_create (p : pc) : nat :=
  match p with
  | AtCreate => 1
  | _ => 0
  end.

Definition creating (cs : list pc) : nat := sum_list (will_create <$> cs).

End ConversationStore.

(** ** The user models, the mapper and the request validation *)

Module Users.
#[local] Open Scope Z_scope.

(** [app/models/user_model.py]. Items, requests and responses derive from
    [ItemBase] of [common_base.py], which gives each of them
    [Message: str | None = None] and [IsInvalid: bool = False].

    [ItemBase] configures its models with [validate_assignment] and
    [str_strip_whitespace]: a model stores a string without its outer
    whitespace, when it is constructed and when an attribute is assigned,
    and stores an [int] as it is. A value of the records below is a model
    as it holds its attributes, its strings in stored form; storing a
    stored form again leaves it as it is, and the texts the validation
    assigns have no outer whitespace. Assignments are therefore embedded
    as plain stores of the value read. *)
Module UserItem.
Record t := {
  Id : Z;
  UserId : Z;
  Name : string;
  Message : option string;
  IsInvalid : bool
}.

(** [UserItem()] *)
Definition new : t :=
  {| Id := 0; UserId := 0; Name := ""; Message := None; IsInvalid := false |}.

Definition set_Id (v : Z) (x : t) : t :=
  {| Id := v; UserId := UserId x; Name := Name x;
     Message := Message x; IsInvalid := IsInvalid x |}.

Definition set_UserId (v : Z) (x : t) : t :=
  {| Id := Id x; UserId := v; Name := Name x;
     Message := Message x; IsInvalid := IsInvalid x |}.

Definition set_Name (v : string) (x : t) : t :=
  {| Id := Id x; UserId := UserId x; Name := v;
     Message := Message x; IsInvalid := IsInvalid x |}.
End UserItem.

Module UserRequest.
Record t := {
  Id : Z;
  UserId : Z;
  Name : string;
  Message : option string;
  IsInvalid : bool
}.

(** [UserRequest()] *)
Definition new : t :=
  {| Id := 0; UserId := 0; Name := ""; Message := None; IsInvalid := false |}.

Definition set_Message (v : option string) (x : t) : t :=
  {| Id := Id x; UserId := UserId x; Name := Name x;
     Message := v; IsInvalid := IsInvalid x |}.

Definition set_IsInvalid (v : bool) (x : t) : t :=
  {| Id := Id x; UserId := UserId x; Name := Name x;
     Message := Message x; IsInvalid := v |}.
End UserRequest.

Module UserResponse.
Record t := {
  Id : Z;
  UserId : Z;
  Name : string;
  Message : option string;
  IsInvalid : bool
}.

(** [UserResponse()] *)
Definition new : t :=
  {| Id := 0; UserId := 0; Name := ""; Message := None; IsInvalid := false |}.

Definition set_UserId (v : Z) (x : t) : t :=
  {| Id := Id x; UserId := v; Name := Name x;
     Message := Message x; IsInvalid := IsInvalid x |}.

Definition set_Name (v : string) (x : t) : t :=
  {| Id := Id x; UserId := UserId x; Name := v;
     Message := Message x; IsInvalid := IsInvalid x |}.

Definition set_Message (v : option string) (x : t) : t :=
  {| Id := Id x; UserId := UserId x; Name := Name x;
     Message := v; IsInvalid := IsInvalid x |}.

Definition set_IsInvalid (v : bool) (x : t) : t :=
  {| Id := Id x; UserId := UserId x; Name := Name x;
     Message := Message x; IsInvalid := v |}.
End UserResponse.

(** [UserModel(ModelBase)] with its three optional parts. [ModelBase] is
    not under src/: [validate_user_request] assigns [Message] and
    [IsInvalid] on a model, so the class has both; they are given the
    types and defaults [ItemBase] gives them. The defaults play no part:
    where the function constructs a [UserModel()] it assigns both at
    once. *)
Module UserModel.
Record t := {
  item : option UserItem.t;
  response : option UserResponse.t;
  request : option UserRequest.t;
  Message : option string;
  IsInvalid : bool
}.

(** [UserModel()] *)
Definition new : t :=
  {| item := None; response := None; request := None;
     Message := None; IsInvalid := false |}.

Definition set_item (v : option UserItem.t) (m : t) : t :=
  {| item := v; response := response m; request := request m;
     Message := Message m; IsInvalid := IsInvalid m |}.

Definition set_request (v : option UserRequest.t) (m : t) : t :=
  {| item := item m; response := response m; request := v;
     Message := Message m; IsInvalid := IsInvalid m |}.

Definition set_response (v : option UserResponse.t) (m : t) : t :=
  {| item := item m; response := v; request := request m;
     Message := Message m; IsInvalid := IsInvalid m |}.

Definition set_Message (v : option string) (m : t) : t :=
  {| item := item m; response := response m; request := request m;
     Message := v; IsInvalid := IsInvalid m |}.

Definition set_IsInvalid (v : bool) (m : t) : t :=
  {| item := item m; response := response m; request := request m;
     Message := Message m; IsInvalid := v |}.

(** [model.item.<attribute> = v]: the object held in [item] is updated in
    place. *)
Definition update_item (f : UserItem.t → UserItem.t) (m : t) : t :=
  set_item (f <$> item m) m.

(** [model.request.<attribute> = v] *)
Definition update_request (f : UserRequest.t → UserRequest.t) (m : t) : t :=
  set_request (f <$> request m) m.
End UserModel.

(** [app/dal/entities/User.py]: the mapped class of the table
    [UserEntity]. An attribute of a mapped object holds [None] until it is
    assigned or loaded, and the columns [UserId] and [Name] are nullable. *)
Module UserEntity.
Record t := {
  Id : option Z;
  UserId : option Z;
  Name : option string
}.

(** [UserEntity()] *)
Definition new : t := {| Id := None; UserId := None; Name := None |}.

Definition set_Id (v : option Z) (e : t) : t :=
  {| Id := v; UserId := UserId e; Name := Name e |}.

Definition set_UserId (v : option Z) (e : t) : t :=
  {| Id := Id e; UserId := v; Name := Name e |}.

Definition set_Name (v : option string) (e : t) : t :=
  {| Id := Id e; UserId := UserId e; Name := v |}.
End UserEntity.

(** [app/dal/utilities/module/map_user.py] *)
Module MapUser.

(** Lines 11-16:
<<
def UserItemToEntity(self, source: UserItem) -> UserEntity:
    destination = UserEntity()
    destination.Id = source.Id
    destination.UserId = source.UserId
    destination.Name = source.Name
    return destination
>> *)
Definition UserItemToEntity (source : UserItem.t) : UserEntity.t :=
  let destination := UserEntity.new in
  let destination := UserEntity.set_Id (Some (UserItem.Id source)) destination in
  let destination := UserEntity.set_UserId (Some (UserItem.UserId source)) destination in
  let destination := UserEntity.set_Name (Some (UserItem.Name source)) destination in
  destination.

(** Lines 18-23:
<<
def UserEntityToItem(self, source: UserEntity) -> UserItem:
    destination = UserItem()
    destination.Id = source.Id
    destination.Name = source.Name
    destination.UserId = source.UserId
    return destination
>>
    The result is a [UserItem] when the three attributes of [source] hold
    values; an attribute that is [None] has no value of the item's field
    type ([int], [str]), and the result is then outside [UserItem.t]. *)
Definition UserEntityToItem (source : UserEntity.t) : option UserItem.t :=
  let destination := UserItem.new in
  v ← UserEntity.Id source;
  let destination := UserItem.set_Id v destination in
  v ← UserEntity.Name source;
  let destination := UserItem.set_Name v destination in
  v ← UserEntity.UserId source;
  let destination := UserItem.set_UserId v destination in
  Some destination.

End MapUser.

(** [app/common/modules/users/user_validation_utility.py] *)
Module UserValidationUtility.

(** Lines 9-35:
<<
def validate_user_request(self, model:UserModel)->UserModel:
    if model == None:
        model = UserModel()
        model.IsInvalid = True
        model.Message = "Invalid user model"
        return model
    request = model.request
    if request == None:
        model.request = UserRequest()
        model.request.IsInvalid = True
        model.request.Message = "Invalid user request"
        model.IsInvalid = True
        model.Message = "Invalid user request"
        return model

    if request.UserId <= 0:
        model.IsInvalid = True
        model.Message = "Invalid user Id"
        return model

    model.item = UserItem()
    model.item.Id = request.Id
    model.item.UserId = request.UserId
    model.item.Name = request.Name
    model.IsInvalid = False

    return model
>>
    The argument is [None] or a model. *)
Definition validate_user_request (model : option UserModel.t) : UserModel.t :=
  match model with
  | None =>
      let model := UserModel.new in
      let model := UserModel.set_IsInvalid true model in
      let model := UserModel.set_Message (Some "Invalid user model") model in
      model
  | Some model =>
      let request := UserModel.request model in
      match request with
      | None =>
          let model := UserModel.set_request (Some UserRequest.new) model in
          let model := UserModel.update_request (UserRequest.set_IsInvalid true) model in
          let model :=
            UserModel.update_request
              (UserRequest.set_Message (Some "Invalid user request")) model in
          let model := UserModel.set_IsInvalid true model in
          let model := UserModel.set_Message (Some "Invalid user request") model in
          model
      | Some request =>
          if UserRequest.UserId request <=? 0 then
            let model := UserModel.set_IsInvalid true model in
            let model := UserModel.set_Message (Some "Invalid user Id") model in
            model
          else
            let model := UserModel.set_item (Some UserItem.new) model in
            let model :=
              UserModel.update_item (UserItem.set_Id (UserRequest.Id request)) model in
            let model :=
              UserModel.update_item
                (UserItem.set_UserId (UserRequest.UserId request)) model in
            let model :=
              UserModel.update_item (UserItem.set_Name (UserRequest.Name request)) model in
            let model := UserModel.set_IsInvalid false model in
            model
      end
  end.

(** The inputs the validation accepts: a model, holding a request, whose
    [UserId] is positive. *)
Definition acceptable (model : option UserModel.t) : Prop :=
  ∃ m r, model = Some m ∧ UserModel.request m = Some r ∧ UserRequest.UserId r > 0.

(** Lines 42-53:
<<
def validate_user_model(self, model:UserModel)->UserModel:
    if model == None:
        model = UserModel()
        model.IsInvalid = True
        model.Message = "Invalid user model"
        return model
    if model.item == None:
        model.item = UserItem()
        model.IsInvalid = True
        model.Message = "Invalid user item"
        return model
    return model
>> *)
Definition validate_user_model (model : option UserModel.t) : UserModel.t :=
  match model with
  | None =>
      let model := UserModel.new in
      let model := UserModel.set_IsInvalid true model in
      let model := UserModel.set_Message (Some "Invalid user model") model in
      model
  | Some model =>
      match UserModel.item model with
      | None =>
          let model := UserModel.set_item (Some UserItem.new) model in
          let model := UserModel.set_IsInvalid true model in
          let model := UserModel.set_Message (Some "Invalid user item") model in
          model
      | Some _ => model
      end
  end.

End UserValidationUtility.

(** [State/002_Fast_01_BufferMemory/app/services/user_service.py]. The
    validation utility the service holds is the class above. *)
Module UserService.
Import UserValidationUtility.

(** Lines 16-29:
<<
def set_response(self, model: UserModel) -> UserModel:
    if model.IsInvalid:
        response = UserResponse()
        response.IsInvalid = True
        response.Message = model.Message
        model.response = response
    else:
        response = UserResponse(
            UserId=model.item.UserId if model.item else 0,
            Name=model.item.Name if model.item else "",
            Message="User created successfully"
        )
        model.response = response
    return model
>>
    A model object is true in a test unless it is [None]. *)
Definition set_response (model : UserModel.t) : UserModel.t :=
  if UserModel.IsInvalid model then
    let response := UserResponse.new in
    let response := UserResponse.set_IsInvalid true response in
    let response := UserResponse.set_Message (UserModel.Message model) response in
    UserModel.set_response (Some response) model
  else
    let response := UserResponse.new in
    let response :=
      UserResponse.set_UserId
        (match UserModel.item model with
         | Some item => UserItem.UserId item
         | None => 0
         end) response in
    let response :=
      UserResponse.set_Name
        (match UserModel.item model with
         | Some item => UserItem.Name item
         | None => ""
         end) response in
    let response :=
      UserResponse.set_Message (Some "User created successfully") response in
    UserModel.set_response (Some response) model.

Section WithRepository.

(** [self.user_repository.create_user]: the repository the service was
    given. It raises, with the text of the exception, or returns a
    model. *)
Variable user_repository_create_user : UserModel.t → string + UserModel.t.

(** Lines 31-40:
<<
def create_user(self, model: UserModel) -> UserModel:
    model = self.user_validation_utility.validate_user_model(model)

    if model.IsInvalid:
        model = self.set_response(model)
        return model

    model =  self.user_repository.create_user(model)
    model = self.set_response(model)
    return model
>>
    The function has no handler of its own: what the repository raises
    leaves it. *)
Definition create_user (model : option UserModel.t) : string + UserModel.t :=
  let model := validate_user_model model in
  if UserModel.IsInvalid model then
    let model := set_response model in
    inr model
  else
    match user_repository_create_user model with
    | inl ex => inl ex
    | inr model =>
        let model := set_response model in
        inr model
    end.

End WithRepository.
End UserService.

(** [State/003_Fast_01_InMemoeryCMH/app/dal/repositories/user_repository.py] *)
Module UserRepository.

(** Lines 18-21:
<<
def set_inv_msg(self, model: UserModel, msg: str) -> UserModel:
    model.IsInvalid = True
    model.Message = msg
    return model
>>
    [msg] is the text as the model stores it, without outer whitespace. *)
Definition set_inv_msg (model : UserModel.t) (msg : string) : UserModel.t :=
  let model := UserModel.set_IsInvalid true model in
  let model := UserModel.set_Message (Some msg) model in
  model.

(** What [str(ex)] is when [model.item] is [None] and [model.item.UserId]
    is read. *)
Definition no_item_error : string :=
  "'NoneType' object has no attribute 'UserId'".

Section WithSession.

(** [self.db]: [None], or a session. A session is taken by what
    [db.add(entity); db.commit(); db.refresh(entity)] does with an entity:
    it raises, with the text of the exception, or leaves the entity with
    the attributes of its row. *)
Variable db : option (UserEntity.t → string + UserEntity.t).

(** Lines 23-37:
<<
def create_user(self,model: UserModel)->UserModel:
    try:
        if self.db == None:
            model = self.set_inv_msg(model=model,msg="Database session is None")
            return model
        # entity = self.map_user.UserItemToEntity(model.item)
        entity = UserEntity(UserId=model.item.UserId, Name=model.item.Name)
        self.db.add(entity)
        self.db.commit()
        self.db.refresh(entity)
        model.item = self.map_user.UserEntityToItem(entity)
        return model
    except Exception as ex:
        model = self.set_inv_msg(model=model,msg=str(ex))
    return model
>>
    [None] marks the one path that is not modelled: the row came back
    with an attribute that is [None], the mapper raises on it inside the
    [try], and the code returns the model flagged invalid with the text of
    that exception. The texts and names that reach a model here (what a
    session raises, the [Name] of the row) are taken in the form a model
    stores them, without outer whitespace. *)
Definition create_user (model : UserModel.t) : option UserModel.t :=
  match db with
  | None =>
      let model := set_inv_msg model "Database session is None" in
      Some model
  | Some session =>
      match UserModel.item model with
      | None => Some (set_inv_msg model no_item_error)
      | Some item =>
          let entity := UserEntity.new in
          let entity := UserEntity.set_UserId (Some (UserItem.UserId item)) entity in
          let entity := UserEntity.set_Name (Some (UserItem.Name item)) entity in
          match session entity with
          | inl ex => Some (set_inv_msg model ex)
          | inr entity =>
              item ← MapUser.UserEntityToItem entity;
              let model := UserModel.set_item (Some item) model in
              Some model
          end
      end
  end.

End WithSession.

(** The entity [create_user] hands to the session for an item: the
    [UserId] and the [Name] of the item, and no [Id]. *)
Definition entity_sent (it : UserItem.t) : UserEntity.t :=
  {| UserEntity.Id := None;
     UserEntity.UserId := Some (UserItem.UserId it);
     UserEntity.Name := Some (UserItem.Name it) |}.

End UserRepository.

(** [State/004_Fast_01_future_annotations/app/api/api_mange_user/api_user.py] *)
Module ApiUser.
Import UserValidationUtility.

(** How the handler ends: it returns a response object ([model.response]
    may be [None]), or the service raised and the [except] branch (lines
    70-73) was entered with [str(ex) = error]. What that branch leaves is
    not modelled: it assigns a dictionary to [Message], which is declared
    [str | None], and the models refuse such an assignment, so the handler
    does not return the response from there. *)
Inductive outcome :=
| Responded (response : option UserResponse.t)
| Excepted (error : string).

Section WithService.

(** [service.create_user]: the service injected into the handler. It
    raises, with the text of the exception, or returns a model. *)
Variable service_create_user : UserModel.t → string + UserModel.t.

(** Lines 52-73:
<<
@user_router.post("/create/user")
async def create_user(request:UserRequest,service:di_user_service)->UserResponse:
    response = UserResponse()
    try:
        validation_utility = get_user_validation_utility()
        model = UserModel()
        model.request = request

        model = validation_utility.validate_user_request(model=model)

        if model.IsInvalid:
            response.IsInvalid = model.IsInvalid
            response.Message = model.Message
            return response

        model = service.create_user(model)
        response = model.response
        return response
    except Exception as ex:
        response.IsInvalid = True
        response.Message = {"error": str(ex)}
        return response
>> *)
Definition create_user (request : UserRequest.t) : outcome :=
  let response := UserResponse.new in
  let model := UserModel.new in
  let model := UserModel.set_request (Some request) model in
  let model := validate_user_request (Some model) in
  if UserModel.IsInvalid model then
    let response := UserResponse.set_IsInvalid (UserModel.IsInvalid model) response in
    let response := UserResponse.set_Message (UserModel.Message model) response in
    Responded (Some response)
  else
    match service_create_user model with
    | inl ex => Excepted ex
    | inr model =>
        let response := UserModel.response model in
        Responded response
    end.

End WithService.

End ApiUser.

End Users.

(** ** Properties of the session store *)

Module ConversationStoreSpec.
Import ConversationStore.

(** Unfolds the statements of the store monad down to matches on the
    dictionary lookup. *)
Ltac unfold_M :=
  unfold run_op, append, get_session_history, add_message, dict_contains,
    dict_setitem, dict_getitem, InMemoryChatMessageHistory,
    mbind, mret, M_bind, M_ret; simpl.

(** Updating the object constructed last. *)
Lemma alter_last {A} (f : A → A) (l : list A) (x : A) :
  alter f (length l) (l ++ [x]) = l ++ [f x].
Proof. induction l as [|y l IH]; simpl; [done | f_equal; exact IH]. Qed.

(** A call on a session id that is present: the stored object comes back
    and nothing changes. *)
Lemma get_session_history_hit (s : string) (st : State) (h : ref) :
  store st !! s = Some h → get_session_history s st = inr (h, st).
Proof.
  intros Hs. unfold_M. rewrite Hs.
  rewrite bool_decide_eq_true_2 by eauto. simpl. by rewrite Hs.
Qed.

(** A call on a session id that is missing: a new object with no message
    is constructed, stored under the id, and returned. *)
Lemma get_session_history_miss (s : string) (st : State) :
  store st !! s = None →
  get_session_history s st =
    inr (length (heap st),
         {| store := <[s := length (heap st)]> (store st);
            heap := heap st ++ [[]] |}).
Proof.
  intros Hs. unfold_M. rewrite Hs.
  rewrite bool_decide_eq_false_2 by (intros [? ?]; discriminate).
  simpl. by rewrite lookup_insert_eq.
Qed.

Lemma get_session_history_total (s : string) (st : State) :
  ∃ h st', get_session_history s st = inr (h, st').
Proof.
  destruct (store st !! s) as [h|] eqn:Hs.
  - rewrite (get_session_history_hit _ _ _ Hs). eauto.
  - rewrite (get_session_history_miss _ _ Hs). eauto.
Qed.

Lemma append_hit (s : string) (r : Role) (c : string) (st : State) (h : ref) :
  store st !! s = Some h →
  append s r c st =
    inr ((), {| store := store st;
                heap := alter (λ t, t ++ [{| role := r; content := c |}]) h (heap st) |}).
Proof.
  intros Hs. unfold append, mbind, M_bind.
  by rewrite (get_session_history_hit _ _ _ Hs).
Qed.

Lemma append_miss (s : string) (r : Role) (c : string) (st : State) :
  store st !! s = None →
  append s r c st =
    inr ((), {| store := <[s := length (heap st)]> (store st);
                heap := heap st ++ [[{| role := r; content := c |}]] |}).
Proof.
  intros Hs. unfold append, mbind, M_bind.
  rewrite (get_session_history_miss _ _ Hs). unfold add_message. simpl.
  by rewrite alter_last.
Qed.

Lemma get_or_create_hit (s : string) (st : State) (h : ref) :
  store st !! s = Some h → run_op (GetOrCreate s) st = inr ((), st).
Proof.
  intros Hs. unfold run_op, mbind, M_bind.
  by rewrite (get_session_history_hit _ _ _ Hs).
Qed.

Lemma get_or_create_miss (s : string) (st : State) :
  store st !! s = None →
  run_op (GetOrCreate s) st =
    inr ((), {| store := <[s := length (heap st)]> (store st);
                heap := heap st ++ [[]] |}).
Proof.
  intros Hs. unfold run_op, mbind, M_bind.
  by rewrite (get_session_history_miss _ _ Hs).
Qed.

(** Splits on the operation and on whether its session id is present,
    and replaces the run of the operation by the state it leaves. *)
Ltac op_cases o st :=
  let s := fresh "s" in
  let r := fresh "r" in
  let c := fresh "c" in
  let h := fresh "h" in
  let Hs := fresh "Hs" in
  destruct o as [s | s r c];
  destruct (store st !! s) as [h|] eqn:Hs;
  [ rewrite (get_or_create_hit _ _ _ Hs)
  | rewrite (get_or_create_miss _ _ Hs)
  | change (run_op (Append s r c)) with (append s r c);
    rewrite (append_hit _ r c _ _ Hs)
  | change (run_op (Append s r c)) with (append s r c);
    rewrite (append_miss _ r c _ Hs) ].

(** No operation raises. *)
Lemma run_op_total (o : op) (st : State) : ∃ st', run_op o st = inr ((), st').
Proof. op_cases o st; eauto. Qed.

Lemma run_ops_total (os : list op) (st : State) :
  ∃ st', run_ops os st = inr ((), st').
Proof.
  revert st. induction os as [|o os IH]; intros st; simpl.
  - by exists st.
  - destruct (run_op_total o st) as [st1 H1]. unfold mbind, M_bind.
    rewrite H1. apply IH.
Qed.

Lemma run_ops_cons (o : op) (os : list op) (st st1 : State) :
  run_op o st = inr ((), st1) → run_ops (o :: os) st = run_ops os st1.
Proof. intros H. simpl. unfold mbind, M_bind. by rewrite H. Qed.

Lemma run_ops_app (os1 os2 : list op) (st st1 : State) :
  run_ops os1 st = inr ((), st1) → run_ops (os1 ++ os2) st = run_ops os2 st1.
Proof.
  revert st. induction os1 as [|o os1 IH]; intros st H; simpl in *.
  - unfold mret, M_ret in H. by simplify_eq.
  - unfold mbind, M_bind in *.
    destruct (run_op o st) as [e|[[] st2]]; [done|]. by apply IH.
Qed.

(** What an operation keeps: a session id that is present stays bound to
    the same object, and the messages of an object that exists are a
    prefix of its messages afterwards. *)
Lemma run_op_keeps (o : op) (st st' : State) :
  run_op o st = inr ((), st') →
  (∀ s h, store st !! s = Some h → store st' !! s = Some h) ∧
  (∀ h t, messages h st = Some t →
     ∃ t', messages h st' = Some t' ∧ t `prefix_of` t').
Proof.
  unfold messages.
  op_cases o st; intros [= <-]; simpl; (split; [intros s' h' Hs' | intros h' t Ht]).
  - done.
  - eauto.
  - rewrite lookup_insert_ne; [done | congruence].
  - exists t. split; [|done].
    rewrite lookup_app_l; [done | by eapply lookup_lt_Some].
  - done.
  - rewrite list_lookup_alter. case_decide as Hd.
    + subst h'. eexists. split; [by rewrite Ht|]. by apply prefix_app_r.
    + eauto.
  - rewrite lookup_insert_ne; [done | congruence].
  - exists t. split; [|done].
    rewrite lookup_app_l; [done | by eapply lookup_lt_Some].
Qed.

Lemma store_inv_initial : store_inv initial.
Proof.
  repeat split.
  - intros s h. simpl. by rewrite lookup_empty.
  - intros s1 s2 h. simpl. by rewrite lookup_empty.
Qed.

(** Every operation keeps the invariants of the store. *)
Lemma run_op_store_inv (o : op) (st st' : State) :
  store_inv st → run_op o st = inr ((), st') → store_inv st'.
Proof.
  intros (Hc & Hu & Hn). unfold store_inv, closed, unshared, created_once in *.
  op_cases o st; intros [= <-]; simpl.
  - done.
  - repeat split.
    + intros s' h'. rewrite lookup_insert. rewrite length_app. simpl.
      case_decide; [intros [= <-]; lia | intros H'; apply Hc in H'; lia].
    + intros s1 s2 h'. rewrite !lookup_insert.
      repeat case_decide; subst; try done.
      * intros [= <-] H'. apply Hc in H'. lia.
      * intros H' [= <-]. apply Hc in H'. lia.
      * apply Hu.
    + rewrite map_size_insert_None by done. rewrite length_app. simpl. lia.
  - repeat split.
    + intros s' h'. rewrite length_alter. apply Hc.
    + done.
    + by rewrite length_alter.
  - repeat split.
    + intros s' h'. rewrite lookup_insert. rewrite length_app. simpl.
      case_decide; [intros [= <-]; lia | intros H'; apply Hc in H'; lia].
    + intros s1 s2 h'. rewrite !lookup_insert.
      repeat case_decide; subst; try done.
      * intros [= <-] H'. apply Hc in H'. lia.
      * intros H' [= <-]. apply Hc in H'. lia.
      * apply Hu.
    + rewrite map_size_insert_None by done. rewrite length_app. simpl. lia.
Qed.

Lemma run_ops_store_inv (os : list op) (st st' : State) :
  store_inv st → run_ops os st = inr ((), st') → store_inv st'.
Proof.
  revert st. induction os as [|o os IH]; intros st Hinv; simpl.
  - by intros [= <-].
  - unfold mbind, M_bind. destruct (run_op o st) as [e|[[] st1]] eqn:H1; [done|].
    apply IH. by eapply run_op_store_inv.
Qed.

(** The invariants hold in every state the process reaches. *)
Lemma reachable_store_inv (st : State) : reachable st → store_inv st.
Proof. intros [os H]. eapply run_ops_store_inv; [apply store_inv_initial | done]. Qed.

(** *** The statements of the specification about the store *)

(** C1. For every session id (the empty string included) and every state,
    [get_session_history] returns without raising. When the id is present
    it returns the object stored under it and changes nothing. When the id
    is missing it returns an object that did not exist before, whose
    message list is empty, and which is now stored under the id; the
    objects that existed before keep their messages. *)
Theorem get_session_history_returns_existing_or_new (s : string) (st : State) :
  ∃ h st', get_session_history s st = inr (h, st') ∧
    match store st !! s with
    | Some h0 => h = h0 ∧ st' = st
    | None =>
        messages h st = None ∧
        messages h st' = Some [] ∧
        store st' = <[s := h]> (store st) ∧
        store st' !! s = Some h ∧
        ∀ h', h' ≠ h → messages h' st' = messages h' st
    end.
Proof.
  destruct (store st !! s) as [h0|] eqn:Hs.
  - exists h0, st. by rewrite (get_session_history_hit _ _ _ Hs).
  - eexists _, _. rewrite (get_session_history_miss _ _ Hs).
    split; [done|]. unfold messages. simpl. repeat split.
    + by apply lookup_ge_None.
    + by rewrite list_lookup_middle.
    + by rewrite lookup_insert_eq.
    + intros h' Hne. destruct (decide (h' < length (heap st))) as [Hlt|Hge].
      * by rewrite lookup_app_l.
      * rewrite !lookup_ge_None_2; [done | lia |].
        rewrite length_app. simpl. lia.
Qed.

(** C2. On a state whose store does not hold [s], the first call returns
    an object with an empty message list; a second call, on the state the
    first one left, returns that same object and leaves the state as it
    was. *)
Theorem get_session_history_twice_same_object (s : string) (st : State) :
  store st !! s = None →
  ∃ h st1,
    get_session_history s st = inr (h, st1) ∧
    messages h st1 = Some [] ∧
    store st1 !! s = Some h ∧
    get_session_history s st1 = inr (h, st1).
Proof.
  intros Hs. eexists _, _. rewrite (get_session_history_miss _ _ Hs).
  split; [done|]. unfold messages. simpl.
  assert (<[s := length (heap st)]> (store st) !! s = Some (length (heap st)))
    as Hin by apply lookup_insert_eq.
  repeat split.
  - by rewrite list_lookup_middle.
  - done.
  - by apply get_session_history_hit.
Qed.

Lemma get_session_history_twice_same_object_witness :
  store initial !! "" = None ∧
  ∃ h st1,
    get_session_history "" initial = inr (h, st1) ∧
    messages h st1 = Some [] ∧
    store st1 !! "" = Some h ∧
    get_session_history "" st1 = inr (h, st1).
Proof.
  split; [reflexivity|].
  apply (get_session_history_twice_same_object "" initial). reflexivity.
Defined.

(** Appending to the object obtained for [s1] leaves every other session
    id bound as before and the object under it with the same messages. *)
Lemma add_message_frame (s1 s2 : string) (m : Message) (st st1 st2 : State) (h : ref) :
  closed st → unshared st → s1 ≠ s2 →
  get_session_history s1 st = inr (h, st1) →
  add_message h m st1 = inr ((), st2) →
  store st2 !! s2 = store st !! s2 ∧
  (∀ h2, store st !! s2 = Some h2 → messages h2 st2 = messages h2 st) ∧
  transcript s2 st2 = transcript s2 st.
Proof.
  intros Hc Hu Hne Hget Hadd.
  assert (store st2 !! s2 = store st !! s2 ∧
          ∀ h2, store st !! s2 = Some h2 → messages h2 st2 = messages h2 st)
    as [Hst Hms].
  { unfold add_message in Hadd. injection Hadd as <-. unfold messages. simpl.
    destruct (store st !! s1) as [h1|] eqn:Hs1.
    - rewrite (get_session_history_hit _ _ _ Hs1) in Hget.
      injection Hget as <- <-. split; [done|].
      intros h2 Hs2. apply list_lookup_alter_ne.
      intros ->. by apply Hne, (Hu s1 s2 h2).
    - rewrite (get_session_history_miss _ _ Hs1) in Hget.
      injection Hget as <- <-. simpl. split.
      + by rewrite lookup_insert_ne.
      + intros h2 Hs2. apply Hc in Hs2.
        rewrite list_lookup_alter_ne by lia. by rewrite lookup_app_l. }
  repeat split; [done..|].
  unfold transcript. rewrite Hst.
  destruct (store st !! s2) as [h2|] eqn:Hs2; simpl; [|done].
  by rewrite (Hms h2).
Qed.

(** C3. [append s r c] followed by [get_session_history s] yields the
    transcript held before the append with the record [{r, c}] added at its
    end: its last element is that record and it is one longer. The state
    is one in which the store refers to existing objects only. *)
Theorem append_then_fetch_last_and_length
    (s : string) (r : Role) (c : string) (st : State) :
  closed st →
  ∃ st1 h t,
    append s r c st = inr ((), st1) ∧
    get_session_history s st1 = inr (h, st1) ∧
    messages h st1 = Some t ∧
    t = transcript s st ++ [{| role := r; content := c |}] ∧
    last t = Some {| role := r; content := c |} ∧
    length t = S (length (transcript s st)).
Proof.
  intros Hc. unfold transcript, messages.
  destruct (store st !! s) as [h|] eqn:Hs; simpl.
  - destruct (lookup_lt_is_Some_2 (heap st) h (Hc _ _ Hs)) as [t0 Ht0].
    rewrite Ht0. simpl.
    eexists _, h, _. rewrite (append_hit _ r c _ _ Hs). split; [done|].
    split; [by apply get_session_history_hit|]. simpl.
    split; [by rewrite list_lookup_alter, decide_True, Ht0|].
    split; [done|]. split; [apply last_snoc|].
    rewrite length_app. simpl. lia.
  - eexists _, (length (heap st)), _. rewrite (append_miss _ r c _ Hs).
    split; [done|].
    split; [apply get_session_history_hit; simpl; apply lookup_insert_eq|].
    simpl. split; [by rewrite list_lookup_middle|]. done.
Qed.

Lemma append_then_fetch_last_and_length_witness :
  let st := {| store := {[ "a" := 0 ]};
               heap := [[{| role := user; content := "hi" |}]] |} in
  closed st ∧
  ∃ st1 h t,
    append "a" assistant "hello" st = inr ((), st1) ∧
    get_session_history "a" st1 = inr (h, st1) ∧
    messages h st1 = Some t ∧
    t = transcript "a" st ++ [{| role := assistant; content := "hello" |}] ∧
    last t = Some {| role := assistant; content := "hello" |} ∧
    length t = S (length (transcript "a" st)).
Proof.
  assert (closed {| store := {[ "a" := 0 ]};
                    heap := [[{| role := user; content := "hi" |}]] |}) as Hc.
  { intros s h. simpl. rewrite lookup_singleton_Some. intros [_ <-]. lia. }
  split; [exact Hc|].
  exact (append_then_fetch_last_and_length "a" assistant "hello" _ Hc).
Defined.

(** C4. In every state the process reaches, two distinct session ids are
    bound to two distinct objects, and appending to the transcript of the
    first (through [append], or on the object [get_session_history]
    returned for it) leaves the second bound to the same object with the
    same messages. *)
Theorem distinct_sessions_never_share (s1 s2 : string) (st : State) :
  reachable st → s1 ≠ s2 →
  (∀ h1 h2, store st !! s1 = Some h1 → store st !! s2 = Some h2 → h1 ≠ h2) ∧
  (∀ r c st', append s1 r c st = inr ((), st') →
     store st' !! s2 = store st !! s2 ∧
     (∀ h2, store st !! s2 = Some h2 → messages h2 st' = messages h2 st) ∧
     transcript s2 st' = transcript s2 st) ∧
  (∀ h m st1 st2,
     get_session_history s1 st = inr (h, st1) →
     add_message h m st1 = inr ((), st2) →
     store st2 !! s2 = store st !! s2 ∧
     (∀ h2, store st !! s2 = Some h2 → messages h2 st2 = messages h2 st) ∧
     transcript s2 st2 = transcript s2 st).
Proof.
  intros Hr Hne. destruct (reachable_store_inv _ Hr) as (Hc & Hu & _).
  split; [|split].
  - intros h1 h2 H1 H2 ->. by apply Hne, (Hu s1 s2 h2).
  - intros r c st' Happ. unfold append, mbind, M_bind in Happ.
    destruct (get_session_history s1 st) as [e|[h st1]] eqn:Hget; [done|].
    by eapply add_message_frame.
  - intros h m st1 st2 Hget Hadd. by eapply add_message_frame.
Qed.

Lemma distinct_sessions_never_share_witness :
  let st := {| store := {[ "a" := 0; "b" := 1 ]};
               heap := [[]; [{| role := user; content := "hi" |}]] |} in
  reachable st ∧ "a" ≠ "b" ∧
  (∀ h1 h2, store st !! "a" = Some h1 → store st !! "b" = Some h2 → h1 ≠ h2) ∧
  (∀ r c st', append "a" r c st = inr ((), st') →
     store st' !! "b" = store st !! "b" ∧
     (∀ h2, store st !! "b" = Some h2 → messages h2 st' = messages h2 st) ∧
     transcript "b" st' = transcript "b" st) ∧
  (∀ h m st1 st2,
     get_session_history "a" st = inr (h, st1) →
     add_message h m st1 = inr ((), st2) →
     store st2 !! "b" = store st !! "b" ∧
     (∀ h2, store st !! "b" = Some h2 → messages h2 st2 = messages h2 st) ∧
     transcript "b" st2 = transcript "b" st).
Proof.
  assert (reachable {| store := {[ "a" := 0; "b" := 1 ]};
                       heap := [[]; [{| role := user; content := "hi" |}]] |})
    as Hr.
  { exists [GetOrCreate "a"; Append "b" user "hi"]. vm_compute. reflexivity. }
  assert ("a" ≠ "b") as Hne by discriminate.
  split; [exact Hr|]. split; [exact Hne|].
  exact (distinct_sessions_never_share "a" "b" _ Hr Hne).
Defined.

(** C5. Every operation keeps the invariants of the store (the store
    refers to existing objects only, no object is stored under two ids,
    and as many objects were constructed as there are ids). A session id
    that is present stays present and bound to the same object, whose
    messages afterwards extend its messages before. An object is
    constructed only for the id of the operation, and only when that id
    was missing. *)
Theorem operations_preserve_store_invariant (o : op) (st : State) :
  store_inv st →
  ∃ st',
    run_op o st = inr ((), st') ∧
    store_inv st' ∧
    (∀ s h, store st !! s = Some h →
       store st' !! s = Some h ∧
       ∃ t t', messages h st = Some t ∧ messages h st' = Some t' ∧
               t `prefix_of` t') ∧
    (∀ h, messages h st = None → is_Some (messages h st') →
       store st !! session_of o = None ∧ store st' !! session_of o = Some h).
Proof.
  intros Hinv. destruct (run_op_total o st) as [st' Hrun].
  exists st'. split; [done|]. split; [by eapply run_op_store_inv|].
  destruct (run_op_keeps _ _ _ Hrun) as [Hkeep Hpre]. split.
  - intros s h Hs. split; [by apply Hkeep|].
    destruct Hinv as (Hc & _ & _).
    destruct (lookup_lt_is_Some_2 (heap st) h (Hc _ _ Hs)) as [t Ht].
    destruct (Hpre h t Ht) as (t' & Ht' & Hp). by exists t, t'.
  - clear Hkeep Hpre. revert Hrun. unfold messages.
    op_cases o st; intros [= <-]; simpl; intros h' Hnone Hsome.
    + rewrite Hnone in Hsome. by destruct Hsome.
    + apply lookup_ge_None in Hnone. apply lookup_lt_is_Some in Hsome.
      rewrite length_app in Hsome. simpl in Hsome.
      assert (h' = length (heap st)) as -> by lia.
      by rewrite lookup_insert_eq.
    + apply lookup_ge_None in Hnone. apply lookup_lt_is_Some in Hsome.
      rewrite length_alter in Hsome. lia.
    + apply lookup_ge_None in Hnone. apply lookup_lt_is_Some in Hsome.
      rewrite length_app in Hsome. simpl in Hsome.
      assert (h' = length (heap st)) as -> by lia.
      by rewrite lookup_insert_eq.
Qed.

Lemma operations_preserve_store_invariant_witness :
  store_inv initial ∧
  ∃ st',
    run_op (Append "a" user "hi") initial = inr ((), st') ∧
    store_inv st' ∧
    (∀ s h, store initial !! s = Some h →
       store st' !! s = Some h ∧
       ∃ t t', messages h initial = Some t ∧ messages h st' = Some t' ∧
               t `prefix_of` t') ∧
    (∀ h, messages h initial = None → is_Some (messages h st') →
       store initial !! session_of (Append "a" user "hi") = None ∧
       store st' !! session_of (Append "a" user "hi") = Some h).
Proof.
  split; [exact store_inv_initial|].
  exact (operations_preserve_store_invariant (Append "a" user "hi") initial
           store_inv_initial).
Defined.

(** C6. Along every sequence of operations, from every state, the
    transcript of every session id after an operation has its transcript
    before the operation as a prefix; so the transcript after the whole
    sequence extends the one at its start. *)
Theorem transcripts_are_append_only (os : list op) (o : op) (st : State) (s : string) :
  ∃ st1 st2,
    run_ops os st = inr ((), st1) ∧
    run_op o st1 = inr ((), st2) ∧
    run_ops (os ++ [o]) st = inr ((), st2) ∧
    transcript s st `prefix_of` transcript s st1 ∧
    transcript s st1 `prefix_of` transcript s st2.
Proof.
  assert (∀ o' sa sb, run_op o' sa = inr ((), sb) →
            transcript s sa `prefix_of` transcript s sb) as Hstep.
  { intros o' sa sb Hrun. destruct (run_op_keeps _ _ _ Hrun) as [Hkeep Hpre].
    unfold transcript.
    destruct (store sa !! s) as [h|] eqn:Hs; simpl; [|apply prefix_nil].
    rewrite (Hkeep _ _ Hs). simpl.
    destruct (messages h sa) as [t|] eqn:Ht; simpl; [|apply prefix_nil].
    destruct (Hpre _ _ Ht) as (t' & -> & Hp). done. }
  assert (∀ os' sa sb, run_ops os' sa = inr ((), sb) →
            transcript s sa `prefix_of` transcript s sb) as Hsteps.
  { induction os' as [|o' os' IH]; intros sa sb; simpl.
    - by intros [= <-].
    - unfold mbind, M_bind.
      destruct (run_op o' sa) as [e|[[] sc]] eqn:H1; [done|]. intros H2.
      etrans; [by eapply Hstep | by apply IH]. }
  destruct (run_ops_total os st) as [st1 H1].
  destruct (run_op_total o st1) as [st2 H2].
  exists st1, st2. repeat split; eauto.
  rewrite (run_ops_app _ _ _ _ H1). simpl. unfold mbind, M_bind. by rewrite H2.
Qed.

(** C7. [get_session_history] and [append] return on every state and
    every session id: neither raises, and so does every sequence of the
    two operations. *)
Theorem store_operations_never_raise
    (st : State) (s : string) (r : Role) (c : string) (os : list op) :
  (∃ h st', get_session_history s st = inr (h, st')) ∧
  (∃ st', append s r c st = inr ((), st')) ∧
  (∃ st', run_ops os st = inr ((), st')) ∧
  (∀ e, get_session_history s st ≠ inl e ∧ append s r c st ≠ inl e).
Proof.
  destruct (get_session_history_total s st) as (h & st1 & Hg).
  destruct (run_op_total (Append s r c) st) as [st2 Ha]. simpl in Ha.
  split; [eauto|]. split; [eauto|]. split; [apply run_ops_total|].
  intros e. rewrite Hg, Ha. done.
Qed.

(** *** Callers preempted between statements *)

Lemma step_at (s : string) (i : nat) (cs : list pc) (st : State) (p : pc) :
  cs !! i = Some p →
  step s i (cs, st) = (<[i := (step_caller s p st).1]> cs, (step_caller s p st).2).
Proof.
  intros Hi. unfold step. simpl. rewrite Hi. by destruct (step_caller s p st).
Qed.

Lemma step_caller_test_hit (s : string) (st : State) (h : ref) :
  store st !! s = Some h → step_caller s AtTest st = (AtReturn, st).
Proof.
  intros Hs. unfold step_caller, dict_contains.
  by rewrite bool_decide_eq_true_2 by (rewrite Hs; eauto).
Qed.

Lemma step_caller_test_miss (s : string) (st : State) :
  store st !! s = None → step_caller s AtTest st = (AtCreate, st).
Proof.
  intros Hs. unfold step_caller, dict_contains.
  by rewrite bool_decide_eq_false_2 by (rewrite Hs; intros [? ?]; discriminate).
Qed.

Lemma step_caller_return (s : string) (st : State) (h : ref) :
  store st !! s = Some h → step_caller s AtReturn st = (Returned h, st).
Proof. intros Hs. unfold step_caller, dict_getitem. by rewrite Hs. Qed.

(** A caller that is not preempted runs [get_session_history]: its three
    turns in a row have the effect of one call. *)
Lemma uninterrupted_caller (s : string) (i : nat) (cs : list pc) (st : State) :
  cs !! i = Some AtTest →
  run_schedule s [i; i; i] (cs, st) =
    match get_session_history s st with
    | inr (h, st') => (<[i := Returned h]> cs, st')
    | inl e => (<[i := Raised e]> cs, st)
    end.
Proof.
  intros Hi. pose proof (lookup_lt_Some _ _ _ Hi) as Hlt.
  unfold run_schedule. simpl. rewrite (step_at _ _ _ _ _ Hi).
  destruct (store st !! s) as [h|] eqn:Hs.
  - rewrite (get_session_history_hit _ _ _ Hs).
    rewrite (step_caller_test_hit _ _ _ Hs). simpl.
    rewrite (step_at _ _ _ _ AtReturn) by (by apply list_lookup_insert_eq).
    rewrite (step_caller_return _ _ _ Hs). simpl.
    rewrite (step_at _ _ _ _ (Returned h))
      by (apply list_lookup_insert_eq; by rewrite length_insert).
    simpl. by rewrite !list_insert_insert_eq.
  - rewrite (get_session_history_miss _ _ Hs).
    rewrite (step_caller_test_miss _ _ Hs). simpl.
    rewrite (step_at _ _ _ _ AtCreate) by (by apply list_lookup_insert_eq).
    simpl.
    rewrite (step_at _ _ _ _ AtReturn)
      by (apply list_lookup_insert_eq; by rewrite length_insert).
    rewrite (step_caller_return _ _ (length (heap st)))
      by (simpl; apply lookup_insert_eq).
    simpl. by rewrite !list_insert_insert_eq.
Qed.

(** A caller that has returned takes no further step. *)
Lemma returned_caller_stays (s : string) (i : nat) (h : ref) (cs : list pc) (st : State) :
  cs !! i = Some (Returned h) → step s i (cs, st) = (cs, st).
Proof.
  intros Hi. unfold step. simpl. rewrite Hi. simpl.
  by rewrite list_insert_id.
Qed.

Lemma run_schedule_app (s : string) (sched1 sched2 : list nat) (c : config) :
  run_schedule s (sched1 ++ sched2) c =
    run_schedule s sched2 (run_schedule s sched1 c).
Proof. apply foldl_app. Qed.

Lemma one_at_a_time_cons (i : nat) (order : list nat) :
  one_at_a_time (i :: order) = [i; i; i] ++ one_at_a_time order.
Proof. done. Qed.

(** Once the id is stored, callers that run one at a time all return the
    stored object and the state stays as it is. *)
Lemma one_at_a_time_after_creation (s : string) (h : ref) (st : State) (order : list nat) :
  store st !! s = Some h →
  ∀ cs, Forall (λ p, p = AtTest ∨ p = Returned h) cs →
  ∃ cs',
    run_schedule s (one_at_a_time order) (cs, st) = (cs', st) ∧
    Forall (λ p, p = AtTest ∨ p = Returned h) cs' ∧
    length cs' = length cs ∧
    ∀ i, i < length cs → (i ∈ order ∨ cs !! i = Some (Returned h)) →
         cs' !! i = Some (Returned h).
Proof.
  intros Hs. induction order as [|i order IH]; intros cs Hcs.
  - exists cs. repeat split; [done..|]. intros i _ [Hin|Hi]; [|done].
    by apply elem_of_nil in Hin.
  - rewrite one_at_a_time_cons, run_schedule_app.
    assert (∃ cs1, run_schedule s [i; i; i] (cs, st) = (cs1, st) ∧
              Forall (λ p, p = AtTest ∨ p = Returned h) cs1 ∧
              length cs1 = length cs ∧
              (i < length cs → cs1 !! i = Some (Returned h)) ∧
              (∀ j, cs !! j = Some (Returned h) → cs1 !! j = Some (Returned h)))
      as (cs1 & -> & Hcs1 & Hlen1 & Hi1 & Hkeep1).
    { destruct (cs !! i) as [p|] eqn:Hi.
      - pose proof (lookup_lt_Some _ _ _ Hi) as Hlt.
        destruct (proj1 (Forall_lookup _ _) Hcs _ _ Hi) as [-> | ->].
        + rewrite (uninterrupted_caller _ _ _ _ Hi).
          rewrite (get_session_history_hit _ _ _ Hs).
          exists (<[i := Returned h]> cs). split; [done|].
          split; [apply Forall_insert; auto|].
          split; [by rewrite length_insert|].
          split; [intros _; by apply list_lookup_insert_eq|].
          intros j Hj. destruct (decide (i = j)) as [->|Hne].
          * by apply list_lookup_insert_eq.
          * by rewrite list_lookup_insert_ne.
        + exists cs. unfold run_schedule. simpl.
          rewrite !(returned_caller_stays _ _ _ _ _ Hi). done.
      - exists cs. unfold run_schedule. simpl. unfold step. simpl. rewrite Hi.
        simpl. rewrite Hi. simpl. rewrite Hi.
        repeat split; [done..| |done].
        intros Hlt. apply lookup_ge_None in Hi. lia. }
    destruct (IH cs1 Hcs1) as (cs' & -> & Hcs' & Hlen' & Hall).
    exists cs'. split; [done|]. split; [done|]. split; [lia|].
    intros j Hj [Hin|Hret].
    + apply Hall; [lia|]. apply elem_of_cons in Hin as [->|Hin]; auto.
    + apply Hall; [lia|]. auto.
Qed.

(** Callers that run one at a time, in any order in which every caller
    takes its turn: when the id is missing at the start,
    every caller returns the one object constructed, which is the object
    stored under the id: one history object is constructed in all. *)
Theorem callers_one_at_a_time_create_once
    (n : nat) (s : string) (st : State) (order : list nat) :
  store st !! s = None →
  0 < n →
  Forall (λ i, i < n) order →
  (∀ i, i < n → i ∈ order) →
  run_schedule s (one_at_a_time order) (callers n, st) =
    (replicate n (Returned (length (heap st))),
     {| store := <[s := length (heap st)]> (store st);
        heap := heap st ++ [[]] |}) ∧
  creates_exactly_one n s st (one_at_a_time order).
Proof.
  intros Hs Hn Hrange Hall.
  assert (run_schedule s (one_at_a_time order) (callers n, st) =
            (replicate n (Returned (length (heap st))),
             {| store := <[s := length (heap st)]> (store st);
                heap := heap st ++ [[]] |})) as Hrun.
  { destruct order as [|i order].
    { specialize (Hall 0 Hn). by apply elem_of_nil in Hall. }
    apply Forall_cons in Hrange as [Hi Hrange].
    rewrite one_at_a_time_cons, run_schedule_app.
    assert (callers n !! i = Some AtTest) as Hat
      by (apply lookup_replicate; auto).
    rewrite (uninterrupted_caller _ _ _ _ Hat).
    rewrite (get_session_history_miss _ _ Hs).
    set (h := length (heap st)).
    set (st1 := {| store := <[s := h]> (store st); heap := heap st ++ [[]] |}).
    assert (store st1 !! s = Some h) as Hs1 by apply lookup_insert_eq.
    assert (Forall (λ p, p = AtTest ∨ p = Returned h)
              (<[i := Returned h]> (callers n))) as Hcs.
    { apply Forall_insert; [|auto]. apply Forall_replicate. auto. }
    destruct (one_at_a_time_after_creation s h st1 order Hs1 _ Hcs)
      as (cs' & -> & _ & Hlen & Hret).
    f_equal. rewrite length_insert in Hlen, Hret.
    unfold callers in Hlen, Hret. rewrite length_replicate in Hlen, Hret.
    apply list_eq_same_length with n; [by rewrite length_replicate | done |].
    intros j x y Hj Hx Hy.
    apply lookup_replicate in Hy as [-> _].
    rewrite Hret in Hx; [by simplify_eq | done |].
    destruct (decide (i = j)) as [->|Hne].
    - right. by apply list_lookup_insert_eq; rewrite length_replicate.
    - left. specialize (Hall j Hj). apply elem_of_cons in Hall as [->|Hin]; done. }
  split; [exact Hrun|].
  unfold creates_exactly_one. rewrite Hrun. simpl. intros _. split.
  - rewrite length_app. simpl. lia.
  - intros h Hh. rewrite lookup_insert_eq. f_equal.
    unfold results in Hh. apply list_elem_of_omap in Hh as (p & Hp & Hph).
    apply elem_of_replicate in Hp as [-> _]. by simplify_eq.
Qed.

Lemma callers_one_at_a_time_create_once_witness :
  store initial !! "s" = None ∧
  0 < 3 ∧
  Forall (λ i, i < 3) [2; 0; 1] ∧
  (∀ i, i < 3 → i ∈ [2; 0; 1]) ∧
  run_schedule "s" (one_at_a_time [2; 0; 1]) (callers 3, initial) =
    (replicate 3 (Returned (length (heap initial))),
     {| store := <[ "s" := length (heap initial)]> (store initial);
        heap := heap initial ++ [[]] |}) ∧
  creates_exactly_one 3 "s" initial (one_at_a_time [2; 0; 1]).
Proof.
  assert (store initial !! "s" = None) as Hs by reflexivity.
  assert (0 < 3) as Hn by lia.
  assert (Forall (λ i, i < 3) [2; 0; 1]) as Hrange
    by (repeat constructor; lia).
  assert (∀ i, i < 3 → i ∈ [2; 0; 1]) as Hall.
  { intros [|[|[|i]]] Hi; [set_solver.. | lia]. }
  split; [exact Hs|]. split; [exact Hn|]. split; [exact Hrange|].
  split; [exact Hall|].
  exact (callers_one_at_a_time_create_once 3 "s" initial [2; 0; 1]
           Hs Hn Hrange Hall).
Defined.

(** C8, as stated, fails. Two callers ask for the missing id "s"; both
    test before either stores (turns 0, 1); caller 0 constructs object 0,
    stores it and returns it (turns 0, 0); caller 1 then constructs
    object 1, stores it over object 0, and returns it (turns 1, 1). Two
    history objects exist, and the object caller 0 holds is not the one
    stored. *)
Lemma preempted_callers_create_twice :
  store initial !! "s" = None ∧
  run_schedule "s" [0; 1; 0; 0; 1; 1] (callers 2, initial) =
    ([Returned 0; Returned 1],
     {| store := {[ "s" := 1 ]}; heap := [[]; []] |}) ∧
  ¬ creates_exactly_one 2 "s" initial [0; 1; 0; 0; 1; 1].
Proof.
  assert (run_schedule "s" [0; 1; 0; 0; 1; 1] (callers 2, initial) =
            ([Returned 0; Returned 1],
             {| store := {[ "s" := 1 ]}; heap := [[]; []] |})) as Hrun
    by (vm_compute; reflexivity).
  split; [reflexivity|]. split; [exact Hrun|].
  unfold creates_exactly_one. rewrite Hrun. simpl. intros H.
  destruct H as [Hlen _].
  - repeat constructor; eauto.
  - discriminate Hlen.
Qed.

End ConversationStoreSpec.

(** ** Properties of the user mapper and of the request validation *)

Module UsersSpec.
Import Users.
#[local] Open Scope Z_scope.

(** The entity built from an item holds the item's three values. *)
Lemma UserItemToEntity_fields (x : UserItem.t) :
  MapUser.UserItemToEntity x =
    {| UserEntity.Id := Some (UserItem.Id x);
       UserEntity.UserId := Some (UserItem.UserId x);
       UserEntity.Name := Some (UserItem.Name x) |}.
Proof. reflexivity. Qed.

(** The item built from an entity whose attributes hold values. *)
Lemma UserEntityToItem_fields (i u : Z) (n : string) :
  MapUser.UserEntityToItem
    {| UserEntity.Id := Some i; UserEntity.UserId := Some u;
       UserEntity.Name := Some n |} =
    Some {| UserItem.Id := i; UserItem.UserId := u; UserItem.Name := n;
            UserItem.Message := None; UserItem.IsInvalid := false |}.
Proof. reflexivity. Qed.

(** An entity with an attribute that holds no value maps to no item. *)
Lemma UserEntityToItem_None (e : UserEntity.t) :
  MapUser.UserEntityToItem e = None ↔
  UserEntity.Id e = None ∨ UserEntity.UserId e = None ∨ UserEntity.Name e = None.
Proof.
  destruct e as [[i|] [u|] [n|]]; simpl; split; intros H;
    try discriminate; try tauto; try (by rewrite UserEntityToItem_fields in H);
    by destruct H as [H|[H|H]].
Qed.

(** C9. Mapping an item to an entity and back gives an item with the
    same [Id], [UserId] and [Name]. (Its [Message] and [IsInvalid] are
    those of a new item: the mapper does not carry them.) *)
Theorem user_item_entity_round_trip (x : UserItem.t) :
  ∃ y,
    MapUser.UserEntityToItem (MapUser.UserItemToEntity x) = Some y ∧
    UserItem.Id y = UserItem.Id x ∧
    UserItem.UserId y = UserItem.UserId x ∧
    UserItem.Name y = UserItem.Name x ∧
    UserItem.Message y = None ∧
    UserItem.IsInvalid y = false.
Proof.
  rewrite UserItemToEntity_fields, UserEntityToItem_fields.
  eexists. split; [reflexivity|]. simpl. done.
Qed.

Example round_trip_drops_message :
  MapUser.UserEntityToItem
    (MapUser.UserItemToEntity
       {| UserItem.Id := 7; UserItem.UserId := 42; UserItem.Name := "Ann";
          UserItem.Message := Some "note"; UserItem.IsInvalid := true |}) =
  Some {| UserItem.Id := 7; UserItem.UserId := 42; UserItem.Name := "Ann";
          UserItem.Message := None; UserItem.IsInvalid := false |}.
Proof. reflexivity. Qed.

Import UserValidationUtility.

(** Unfolds the attribute assignments on a model. *)
Ltac unfold_setters :=
  unfold UserModel.update_item, UserModel.update_request, UserModel.set_item,
    UserModel.set_request, UserModel.set_Message, UserModel.set_IsInvalid;
  simpl.

(** The three ways an input fails the validation, and the one way it
    passes. *)
Lemma validate_user_request_no_model :
  validate_user_request None =
    {| UserModel.item := None; UserModel.response := None;
       UserModel.request := None;
       UserModel.Message := Some "Invalid user model";
       UserModel.IsInvalid := true |}.
Proof. reflexivity. Qed.

Lemma validate_user_request_no_request (m : UserModel.t) :
  UserModel.request m = None →
  validate_user_request (Some m) =
    {| UserModel.item := UserModel.item m;
       UserModel.response := UserModel.response m;
       UserModel.request :=
         Some {| UserRequest.Id := 0; UserRequest.UserId := 0;
                 UserRequest.Name := "";
                 UserRequest.Message := Some "Invalid user request";
                 UserRequest.IsInvalid := true |};
       UserModel.Message := Some "Invalid user request";
       UserModel.IsInvalid := true |}.
Proof.
  intros H. unfold validate_user_request. rewrite H. unfold_setters.
  by rewrite ?H.
Qed.

Lemma validate_user_request_bad_id (m : UserModel.t) (r : UserRequest.t) :
  UserModel.request m = Some r → UserRequest.UserId r <= 0 →
  validate_user_request (Some m) =
    {| UserModel.item := UserModel.item m;
       UserModel.response := UserModel.response m;
       UserModel.request := Some r;
       UserModel.Message := Some "Invalid user Id";
       UserModel.IsInvalid := true |}.
Proof.
  intros H Hle. unfold validate_user_request. rewrite H.
  apply Z.leb_le in Hle. rewrite Hle. unfold_setters. by rewrite H.
Qed.

Lemma validate_user_request_valid (m : UserModel.t) (r : UserRequest.t) :
  UserModel.request m = Some r → UserRequest.UserId r > 0 →
  validate_user_request (Some m) =
    {| UserModel.item :=
         Some {| UserItem.Id := UserRequest.Id r;
                 UserItem.UserId := UserRequest.UserId r;
                 UserItem.Name := UserRequest.Name r;
                 UserItem.Message := None; UserItem.IsInvalid := false |};
       UserModel.response := UserModel.response m;
       UserModel.request := Some r;
       UserModel.Message := UserModel.Message m;
       UserModel.IsInvalid := false |}.
Proof.
  intros H Hgt. unfold validate_user_request. rewrite H.
  assert ((UserRequest.UserId r <=? 0) = false) as -> by (apply Z.leb_gt; lia).
  unfold_setters. by rewrite H.
Qed.

(** The boundary of the test [request.UserId <= 0]: 0 is refused, 1 is
    accepted. *)
Example validate_user_request_zero_id :
  let m := UserModel.set_request
             (Some {| UserRequest.Id := 5; UserRequest.UserId := 0;
                      UserRequest.Name := "Ann"; UserRequest.Message := None;
                      UserRequest.IsInvalid := false |}) UserModel.new in
  UserModel.IsInvalid (validate_user_request (Some m)) = true ∧
  UserModel.Message (validate_user_request (Some m)) = Some "Invalid user Id" ∧
  UserModel.item (validate_user_request (Some m)) = None.
Proof. repeat split. Qed.

Example validate_user_request_one_id :
  let m := UserModel.set_request
             (Some {| UserRequest.Id := 5; UserRequest.UserId := 1;
                      UserRequest.Name := "Ann"; UserRequest.Message := None;
                      UserRequest.IsInvalid := false |}) UserModel.new in
  UserModel.IsInvalid (validate_user_request (Some m)) = false ∧
  UserModel.item (validate_user_request (Some m)) =
    Some {| UserItem.Id := 5; UserItem.UserId := 1; UserItem.Name := "Ann";
            UserItem.Message := None; UserItem.IsInvalid := false |}.
Proof. repeat split. Qed.

(** C10. The model [validate_user_request] returns has [IsInvalid] false
    exactly when the input is a model holding a request with a positive
    [UserId]; its item then carries the [Id], [UserId] and [Name] of the
    request. On every other input [IsInvalid] is true, [Message] is a
    non-empty text, and the item is the one the input had (none when there
    was no model): nothing of the request is copied into it. *)
Theorem validate_user_request_accepts_iff (model : option UserModel.t) :
  (UserModel.IsInvalid (validate_user_request model) = false ↔ acceptable model) ∧
  (∀ m r, model = Some m → UserModel.request m = Some r →
     UserRequest.UserId r > 0 →
     ∃ it, UserModel.item (validate_user_request model) = Some it ∧
           UserItem.Id it = UserRequest.Id r ∧
           UserItem.UserId it = UserRequest.UserId r ∧
           UserItem.Name it = UserRequest.Name r) ∧
  (¬ acceptable model →
     UserModel.IsInvalid (validate_user_request model) = true ∧
     (∃ msg, UserModel.Message (validate_user_request model) = Some msg ∧
             msg ≠ "") ∧
     UserModel.item (validate_user_request model) = (m ← model; UserModel.item m)).
Proof.
  destruct model as [m|].
  - destruct (UserModel.request m) as [r|] eqn:Hreq.
    + destruct (Z_le_gt_dec (UserRequest.UserId r) 0) as [Hle|Hgt].
      * rewrite (validate_user_request_bad_id _ _ Hreq Hle). simpl.
        split; [|split].
        -- split; [done|]. intros (m' & r' & [= <-] & Hr' & Hpos).
           rewrite Hreq in Hr'. simplify_eq. lia.
        -- intros m' r' [= <-] Hr' Hpos. rewrite Hreq in Hr'. simplify_eq. lia.
        -- intros _. split; [done|]. split; [|done]. by eexists.
      * rewrite (validate_user_request_valid _ _ Hreq Hgt). simpl.
        split; [|split].
        -- split; [|done]. intros _. by exists m, r.
        -- intros m' r' [= <-] Hr' _. rewrite Hreq in Hr'. simplify_eq.
           by eexists.
        -- intros Hno. destruct Hno. by exists m, r.
    + rewrite (validate_user_request_no_request _ Hreq). simpl.
      split; [|split].
      * split; [done|]. intros (m' & r' & [= <-] & Hr' & _). congruence.
      * intros m' r' [= <-] Hr'. congruence.
      * intros _. split; [done|]. split; [|done]. by eexists.
  - rewrite validate_user_request_no_model. simpl.
    split; [|split].
    + split; [done|]. by intros (m' & r' & [=] & _).
    + by intros m' r' [=].
    + intros _. split; [done|]. split; [|done]. by eexists.
Qed.

End UsersSpec.

(** ** Further properties of the session store *)

Module ConversationStoreMore.
Import ConversationStore ConversationStoreSpec.

(** The session ids in the store after one operation. *)
Lemma run_op_dom (o : op) (st : State) :
  ∃ st', run_op o st = inr ((), st') ∧
         dom (store st') = dom (store st) ∪ {[session_of o]}.
Proof.
  assert (∀ s h, store st !! s = Some h →
            dom (store st) = dom (store st) ∪ {[s]}) as Hin.
  { intros s h Hs. apply elem_of_dom_2 in Hs. apply set_eq. intros x.
    rewrite elem_of_union, elem_of_singleton. split; [auto|].
    by intros [?| ->]. }
  op_cases o st; eexists; (split; [done|]); simpl.
  - by eapply Hin.
  - rewrite dom_insert_L. apply union_comm_L.
  - by eapply Hin.
  - rewrite dom_insert_L. apply union_comm_L.
Qed.

Lemma run_ops_dom (os : list op) (st : State) :
  ∃ st', run_ops os st = inr ((), st') ∧
         dom (store st') = dom (store st) ∪ list_to_set (session_of <$> os).
Proof.
  revert st. induction os as [|o os IH]; intros st.
  - exists st. split; [done|]. simpl. by rewrite union_empty_r_L.
  - destruct (run_op_dom o st) as (st1 & H1 & Hd1).
    destruct (IH st1) as (st2 & H2 & Hd2).
    exists st2. rewrite (run_ops_cons _ _ _ _ H1). split; [done|].
    rewrite Hd2, Hd1. simpl. by rewrite union_assoc_L.
Qed.

(** X1. After any sequence of operations the session ids in the store
    are those it held before together with the ids the operations named:
    an id enters the store when it is first asked for, and none leaves.
    Started from the empty store, the store holds exactly the ids asked
    for, and one history object exists per id. *)
Theorem store_keys_are_the_ids_asked (os : list op) (st : State) :
  ∃ st',
    run_ops os st = inr ((), st') ∧
    dom (store st') = dom (store st) ∪ list_to_set (session_of <$> os) ∧
    (st = initial →
       dom (store st') = list_to_set (session_of <$> os) ∧
       length (heap st') = size (list_to_set (session_of <$> os) : gset string)).
Proof.
  destruct (run_ops_dom os st) as (st' & Hrun & Hdom).
  exists st'. split; [done|]. split; [done|]. intros ->.
  assert (dom (store st') = list_to_set (session_of <$> os)) as Hd.
  { rewrite Hdom. simpl. by rewrite dom_empty_L, union_empty_l_L. }
  split; [done|].
  destruct (run_ops_store_inv _ _ _ store_inv_initial Hrun) as (_ & _ & Hn).
  unfold created_once in Hn. by rewrite <- Hd, size_dom.
Qed.

(** *** Any schedule *)

(** A property of configurations kept by every turn holds after every
    schedule. *)
Lemma run_schedule_ind (P : config → Prop) (s : string) :
  (∀ i c, P c → P (step s i c)) →
  ∀ sched c, P c → P (run_schedule s sched c).
Proof.
  intros Hstep sched. unfold run_schedule.
  induction sched as [|i sched IH]; intros c Hc; simpl; [done|].
  apply IH, Hstep, Hc.
Qed.

(** What a turn does to the configuration, by the place of the caller. *)
Lemma step_cases (s : string) (i : nat) (cs : list pc) (st : State) :
  (cs !! i = None ∧ step s i (cs, st) = (cs, st)) ∨
  (∃ p, cs !! i = Some p ∧
        step s i (cs, st) =
          (<[i := (step_caller s p st).1]> cs, (step_caller s p st).2)).
Proof.
  destruct (cs !! i) as [p|] eqn:Hi.
  - right. exists p. split; [done|]. by apply step_at.
  - left. split; [done|]. unfold step. simpl. by rewrite Hi.
Qed.

(** X2. Once the id is stored, preemption is harmless: whatever the
    schedule and the number of callers, no history object is constructed,
    the state stays as it is, and every caller that has returned holds the
    stored object. *)
Theorem stored_id_any_schedule
    (n : nat) (s : string) (st : State) (h : ref) (sched : list nat) :
  store st !! s = Some h →
  (run_schedule s sched (callers n, st)).2 = st ∧
  Forall (λ p, p = AtTest ∨ p = AtReturn ∨ p = Returned h)
    (run_schedule s sched (callers n, st)).1 ∧
  ∀ h', h' ∈ results (run_schedule s sched (callers n, st)).1 → h' = h.
Proof.
  intros Hs.
  set (P := λ c : config,
         c.2 = st ∧ Forall (λ p, p = AtTest ∨ p = AtReturn ∨ p = Returned h) c.1).
  assert (P (run_schedule s sched (callers n, st))) as [Hst Hcs].
  { apply run_schedule_ind.
    - intros i [cs st0] [Hst0 Hcs]. simpl in Hst0. subst st0. simpl in Hcs.
      destruct (step_cases s i cs st) as [[_ ->] | (p & Hi & ->)]; [done|].
      pose proof (proj1 (Forall_lookup _ _) Hcs _ _ Hi) as [-> | [-> | ->]].
      + rewrite (step_caller_test_hit _ _ _ Hs). split; [done|]. simpl.
        apply Forall_insert; auto.
      + rewrite (step_caller_return _ _ _ Hs). split; [done|]. simpl.
        apply Forall_insert; auto.
      + simpl. split; [done|]. apply Forall_insert; auto.
    - split; [done|]. simpl. apply Forall_replicate. auto. }
  split; [done|]. split; [done|].
  intros h' Hh'. unfold results in Hh'.
  apply list_elem_of_omap in Hh' as (p & Hp & Hph).
  pose proof (proj1 (Forall_forall _ _) Hcs _ Hp) as [-> | [-> | ->]];
    simpl in Hph; by simplify_eq.
Qed.

Lemma stored_id_any_schedule_witness :
  let st := {| store := {[ "s" := 0 ]}; heap := [[]] |} in
  store st !! "s" = Some 0 ∧
  (run_schedule "s" [0; 1; 1; 0; 2] (callers 3, st)).2 = st ∧
  Forall (λ p, p = AtTest ∨ p = AtReturn ∨ p = Returned 0)
    (run_schedule "s" [0; 1; 1; 0; 2] (callers 3, st)).1 ∧
  ∀ h', h' ∈ results (run_schedule "s" [0; 1; 1; 0; 2] (callers 3, st)).1 → h' = 0.
Proof.
  assert (store {| store := {[ "s" := 0 ]}; heap := [[]] |} !! "s" = Some 0)
    as Hs by reflexivity.
  split; [exact Hs|].
  exact (stored_id_any_schedule 3 "s" _ 0 [0; 1; 1; 0; 2] Hs).
Defined.

(** X3. Preempted or not, no caller of [get_session_history] raises: a
    caller reaches the subscript of line 48 only once the id is stored,
    and nothing removes an id. This holds for every number of callers,
    every schedule and every starting state. *)
Theorem no_caller_raises (n : nat) (s : string) (st : State) (sched : list nat) :
  Forall (λ p, ∀ e, p ≠ Raised e) (run_schedule s sched (callers n, st)).1.
Proof.
  set (ok := λ (st0 : State) (p : pc),
         match p with
         | Raised _ => False
         | AtReturn => is_Some (store st0 !! s)
         | _ => True
         end).
  set (P := λ c : config, Forall (ok c.2) c.1).
  assert (P (run_schedule s sched (callers n, st))) as HP.
  { apply run_schedule_ind.
    - intros i [cs st0] Hcs. unfold P in *. simpl in Hcs.
      destruct (step_cases s i cs st0) as [[_ ->] | (p & Hi & ->)]; [done|].
      pose proof (proj1 (Forall_lookup _ _) Hcs _ _ Hi) as Hp. simpl.
      destruct p as [| | |h|e]; simpl in Hp.
      + destruct (store st0 !! s) as [h|] eqn:Hs.
        * rewrite (step_caller_test_hit _ _ _ Hs). simpl.
          apply Forall_insert; [done|]. simpl. rewrite Hs. eauto.
        * rewrite (step_caller_test_miss _ _ Hs). simpl.
          by apply Forall_insert.
      + simpl. apply Forall_insert.
        * eapply Forall_impl; [exact Hcs|]. intros [| | |h|e]; simpl; try done.
          intros [h Hh]. destruct (decide (s = s)); [|done].
          rewrite lookup_insert. case_decide; eauto.
        * simpl. rewrite lookup_insert_eq. eauto.
      + destruct Hp as [h Hs]. rewrite (step_caller_return _ _ _ Hs). simpl.
        by apply Forall_insert.
      + simpl. by apply Forall_insert.
      + done.
    - unfold P. simpl. by apply Forall_replicate. }
  eapply Forall_impl; [exact HP|].
  intros [| | |h|e]; simpl; try done.
Qed.

Lemma pending_insert (cs : list pc) (i : nat) (p p' : pc) :
  cs !! i = Some p →
  pending (<[i := p']> cs) + may_create p = pending cs + may_create p'.
Proof.
  unfold pending. revert i. induction cs as [|q cs IH]; intros [|i] Hi.
  - done.
  - done.
  - simpl in *. simplify_eq. lia.
  - specialize (IH i Hi).
    change (<[S i := p']> (q :: cs)) with (q :: <[i := p']> cs).
    rewrite !fmap_cons. cbn [sum_list]. lia.
Qed.

Lemma pending_callers (n : nat) : pending (callers n) = n.
Proof.
  unfold pending, callers. induction n as [|n IH]; [done|].
  change (replicate (S n) AtTest) with (AtTest :: replicate n AtTest).
  rewrite fmap_cons. cbn [sum_list may_create]. by rewrite IH.
Qed.

(** X4. Whatever the schedule, [n] callers leave the history objects
    that existed untouched and construct at most [n] new ones, all
    empty: the heap afterwards is the heap before followed by at most [n]
    empty message lists. *)
Theorem callers_only_add_empty_histories
    (n : nat) (s : string) (st : State) (sched : list nat) :
  ∃ k, k ≤ n ∧
       heap (run_schedule s sched (callers n, st)).2 = heap st ++ replicate k [].
Proof.
  set (P := λ c : config,
         ∃ k, k + pending c.1 ≤ n ∧ heap c.2 = heap st ++ replicate k []).
  assert (P (run_schedule s sched (callers n, st))) as (k & Hk & Hheap).
  { apply run_schedule_ind.
    - intros i [cs st0] (k & Hk & Hheap). unfold P. simpl in Hk, Hheap.
      destruct (step_cases s i cs st0) as [[_ ->] | (p & Hi & ->)];
        [by exists k|].
      pose proof (pending_insert cs i p (step_caller s p st0).1 Hi) as Hpend.
      simpl. destruct p as [| | |h|e].
      + destruct (store st0 !! s) as [h|] eqn:Hs.
        * rewrite (step_caller_test_hit _ _ _ Hs) in *. simpl in *.
          exists k. split; [lia | done].
        * rewrite (step_caller_test_miss _ _ Hs) in *. simpl in *.
          exists k. split; [lia | done].
      + simpl in *. exists (S k). split; [lia|].
        rewrite Hheap, <- app_assoc. f_equal.
        change [[]] with (replicate 1 (@nil Message)) at 1.
        rewrite <- replicate_add. f_equal. lia.
      + unfold step_caller, dict_getitem in *.
        destruct (store st0 !! s); simpl in *; exists k; (split; [lia | done]).
      + simpl in *. exists k. split; [lia | done].
      + simpl in *. exists k. split; [lia | done].
    - exists 0. simpl. rewrite pending_callers, app_nil_r. split; [lia | done]. }
  exists k. split; [lia | done].
Qed.

End ConversationStoreMore.

(** ** The first insert and the tests of the other callers *)

Module ConversationStoreRace.
Import ConversationStore ConversationStoreSpec ConversationStoreMore.

(** With the id stored under [h], and every caller before its test,
    before its return or returned with [h], every schedule leaves the
    state as it is and the callers in one of these three places. *)
Lemma stored_id_keeps_config
    (s : string) (h : ref) (st : State) (sched : list nat) (cs : list pc) :
  store st !! s = Some h →
  Forall (λ p, p = AtTest ∨ p = AtReturn ∨ p = Returned h) cs →
  (run_schedule s sched (cs, st)).2 = st ∧
  Forall (λ p, p = AtTest ∨ p = AtReturn ∨ p = Returned h)
    (run_schedule s sched (cs, st)).1.
Proof.
  intros Hs Hcs.
  apply (run_schedule_ind
           (λ c, c.2 = st ∧
                 Forall (λ p, p = AtTest ∨ p = AtReturn ∨ p = Returned h) c.1)).
  - intros i [cs0 st0] [Hst0 Hcs0]. simpl in Hst0. subst st0. simpl in Hcs0.
    destruct (step_cases s i cs0 st) as [[_ ->] | (p & Hi & ->)]; [done|].
    pose proof (proj1 (Forall_lookup _ _) Hcs0 _ _ Hi) as [-> | [-> | ->]].
    + rewrite (step_caller_test_hit _ _ _ Hs). split; [done|]. simpl.
      apply Forall_insert; auto.
    + rewrite (step_caller_return _ _ _ Hs). split; [done|]. simpl.
      apply Forall_insert; auto.
    + simpl. split; [done|]. apply Forall_insert; auto.
  - done.
Qed.

(** A caller that tests for a missing id and inserts at once, before
    anyone else runs. *)
Lemma test_then_insert (n : nat) (s : string) (st : State) (i : nat) :
  store st !! s = None → i < n →
  run_schedule s [i; i] (callers n, st) =
    (<[i := AtReturn]> (callers n),
     {| store := <[s := length (heap st)]> (store st);
        heap := heap st ++ [[]] |}).
Proof.
  intros Hs Hi.
  assert (callers n !! i = Some AtTest) as Hat
    by (apply lookup_replicate; auto).
  pose proof (lookup_lt_Some _ _ _ Hat) as Hlt.
  unfold run_schedule. simpl. rewrite (step_at _ _ _ _ _ Hat).
  rewrite (step_caller_test_miss _ _ Hs). simpl.
  rewrite (step_at _ _ _ _ AtCreate) by (by apply list_lookup_insert_eq).
  simpl. by rewrite list_insert_insert_eq.
Qed.

(** C8, as amended. [n] callers ask for an id that is missing. When the
    caller that tests first also inserts before any other caller tests
    (its test and its insert are the first two turns), then however the
    callers are interleaved from there on, one history object is
    constructed in all: the state is the one that first insert left, and
    every caller that returns holds the object stored under the id. *)
Theorem first_insert_before_other_tests_creates_once
    (n : nat) (s : string) (st : State) (i : nat) (rest : list nat) :
  store st !! s = None →
  i < n →
  (run_schedule s ([i; i] ++ rest) (callers n, st)).2 =
    {| store := <[s := length (heap st)]> (store st);
       heap := heap st ++ [[]] |} ∧
  (∀ h, h ∈ results (run_schedule s ([i; i] ++ rest) (callers n, st)).1 →
        h = length (heap st)) ∧
  creates_exactly_one n s st ([i; i] ++ rest).
Proof.
  intros Hs Hi.
  set (h := length (heap st)).
  set (st1 := {| store := <[s := h]> (store st); heap := heap st ++ [[]] |}).
  assert (store st1 !! s = Some h) as Hs1 by apply lookup_insert_eq.
  assert (Forall (λ p, p = AtTest ∨ p = AtReturn ∨ p = Returned h)
            (<[i := AtReturn]> (callers n))) as Hcs.
  { apply Forall_insert; [|auto]. apply Forall_replicate. auto. }
  destruct (stored_id_keeps_config s h st1 rest _ Hs1 Hcs) as [Hst Hplaces].
  rewrite run_schedule_app, (test_then_insert _ _ _ _ Hs Hi) in *.
  fold h st1 in Hst, Hplaces |- *.
  assert (∀ h', h' ∈ results
                  (run_schedule s rest (<[i := AtReturn]> (callers n), st1)).1 →
                h' = h) as Hres.
  { intros h' Hh'. unfold results in Hh'.
    apply list_elem_of_omap in Hh' as (p & Hp & Hph).
    pose proof (proj1 (Forall_forall _ _) Hplaces _ Hp) as [-> | [-> | ->]];
      simpl in Hph; by simplify_eq. }
  split; [done|]. split; [done|].
  unfold creates_exactly_one.
  rewrite run_schedule_app, (test_then_insert _ _ _ _ Hs Hi).
  fold h st1. simpl. intros _. rewrite Hst. split.
  - simpl. rewrite length_app. simpl. lia.
  - intros h' Hh'. by rewrite (Hres h' Hh').
Qed.

Lemma first_insert_before_other_tests_creates_once_witness :
  store initial !! "s" = None ∧
  0 < 2 ∧
  (run_schedule "s" ([0; 0] ++ [1; 0; 1; 1]) (callers 2, initial)).2 =
    {| store := <[ "s" := length (heap initial)]> (store initial);
       heap := heap initial ++ [[]] |} ∧
  (∀ h, h ∈ results
          (run_schedule "s" ([0; 0] ++ [1; 0; 1; 1]) (callers 2, initial)).1 →
        h = length (heap initial)) ∧
  creates_exactly_one 2 "s" initial ([0; 0] ++ [1; 0; 1; 1]).
Proof.
  assert (store initial !! "s" = None) as Hs by reflexivity.
  assert (0 < 2) as Hn by lia.
  split; [exact Hs|]. split; [exact Hn|].
  exact (first_insert_before_other_tests_creates_once
           2 "s" initial 0 [1; 0; 1; 1] Hs Hn).
Defined.

(** The schedule of the witness is not one in which the callers run one
    after another, and both callers return the one object. *)
Example interleaved_after_first_insert :
  run_schedule "s" [0; 0; 1; 0; 1; 1] (callers 2, initial) =
    ([Returned 0; Returned 0],
     {| store := {[ "s" := 0 ]}; heap := [[]] |}).
Proof. vm_compute. reflexivity. Qed.

(** *** The condition cannot be dropped *)

Lemma creating_insert (cs : list pc) (i : nat) (p p' : pc) :
  cs !! i = Some p →
  creating (<[i := p']> cs) + will_create p = creating cs + will_create p'.
Proof.
  unfold creating. revert i. induction cs as [|q cs IH]; intros [|i] Hi.
  - done.
  - done.
  - simpl in *. simplify_eq. lia.
  - specialize (IH i Hi).
    change (<[S i := p']> (q :: cs)) with (q :: <[i := p']> cs).
    rewrite !fmap_cons. cbn [sum_list]. lia.
Qed.

Lemma creating_callers (n : nat) : creating (callers n) = 0.
Proof.
  unfold creating, callers. induction n as [|n IH]; [done|].
  change (replicate (S n) AtTest) with (AtTest :: replicate n AtTest).
  rewrite fmap_cons. cbn [sum_list will_create]. by rewrite IH.
Qed.

Lemma creating_all_returned (cs : list pc) : all_returned cs → creating cs = 0.
Proof.
  unfold all_returned, creating. induction 1 as [|p cs [h ->] _ IH]; [done|].
  rewrite fmap_cons. cbn [sum_list will_create]. by rewrite IH.
Qed.

(** A turn never lowers the number of history objects that exist or are
    about to be constructed. *)
Lemma step_keeps_heap_and_creating (s : string) (i : nat) (c : config) :
  length (heap c.2) + creating c.1 ≤
  length (heap (step s i c).2) + creating (step s i c).1.
Proof.
  destruct c as [cs st].
  destruct (step_cases s i cs st) as [[_ ->] | (p & Hi & ->)]; [done|].
  pose proof (creating_insert cs i p (step_caller s p st).1 Hi) as Hins.
  simpl. destruct p as [| | |h|e].
  - destruct (store st !! s) as [h|] eqn:Hs.
    + rewrite (step_caller_test_hit _ _ _ Hs) in *. simpl in *. lia.
    + rewrite (step_caller_test_miss _ _ Hs) in *. simpl in *. lia.
  - simpl in *. rewrite length_app. simpl. lia.
  - unfold step_caller, dict_getitem in *.
    destruct (store st !! s); simpl in *; lia.
  - simpl in *. lia.
  - simpl in *. lia.
Qed.

(** When a second caller tests before the first has inserted, and all
    callers return, two history objects at least are constructed: the
    amended statement does not hold without its condition. *)
Lemma second_test_before_insert_creates_twice
    (n : nat) (s : string) (st : State) (i j : nat) (rest : list nat) :
  store st !! s = None →
  i < n → j < n → i ≠ j →
  all_returned (run_schedule s ([i; j] ++ rest) (callers n, st)).1 →
  length (heap st) + 2 ≤
    length (heap (run_schedule s ([i; j] ++ rest) (callers n, st)).2) ∧
  ¬ creates_exactly_one n s st ([i; j] ++ rest).
Proof.
  intros Hs Hi Hj Hne Hall.
  assert (length (heap st) + 2 ≤
            length (heap (run_schedule s ([i; j] ++ rest) (callers n, st)).2))
    as Hlen.
  { pose proof (creating_all_returned _ Hall) as Hzero.
    rewrite run_schedule_app in *.
    enough (length (heap st) + 2 ≤
              length (heap (run_schedule s rest
                              (run_schedule s [i; j] (callers n, st))).2) +
              creating (run_schedule s rest
                          (run_schedule s [i; j] (callers n, st))).1) by lia.
    apply (run_schedule_ind
             (λ c, length (heap st) + 2 ≤ length (heap c.2) + creating c.1)).
    - intros k c Hc.
      pose proof (step_keeps_heap_and_creating s k c). lia.
    - assert (callers n !! i = Some AtTest) as Hati
        by (apply lookup_replicate; auto).
      assert (<[i := AtCreate]> (callers n) !! j = Some AtTest) as Hatj.
      { rewrite list_lookup_insert_ne by done. apply lookup_replicate; auto. }
      unfold run_schedule. simpl.
      rewrite (step_at _ _ _ _ _ Hati), (step_caller_test_miss _ _ Hs). simpl.
      rewrite (step_at _ _ _ _ _ Hatj), (step_caller_test_miss _ _ Hs). simpl.
      pose proof (creating_insert _ j _ AtCreate Hatj) as H2.
      pose proof (creating_insert _ i _ AtCreate Hati) as H1.
      rewrite creating_callers in H1. simpl in H1, H2. lia. }
  split; [exact Hlen|].
  unfold creates_exactly_one. intros Hone. cbv zeta in Hone.
  destruct (Hone Hall) as [Hlen1 _]. lia.
Qed.

End ConversationStoreRace.

(** ** Further properties of the user validation, service, repository
       and handler *)

Module UsersMore.
Import Users UsersSpec UserValidationUtility.
#[local] Open Scope Z_scope.

(** *** The validation utility *)

(** X5. [validate_user_request] never touches the response of a model
    and keeps the request it was given. When it accepts, it leaves
    [Message] as it was: a text from an earlier failure stays on the
    model. When the model has no request it is given a new one, flagged
    invalid, with the text "Invalid user request". *)
Theorem validate_user_request_keeps (m : UserModel.t) :
  UserModel.response (validate_user_request (Some m)) = UserModel.response m ∧
  (∀ r, UserModel.request m = Some r →
     UserModel.request (validate_user_request (Some m)) = Some r) ∧
  (UserModel.IsInvalid (validate_user_request (Some m)) = false →
     UserModel.Message (validate_user_request (Some m)) = UserModel.Message m) ∧
  (UserModel.request m = None →
     UserModel.request (validate_user_request (Some m)) =
       Some {| UserRequest.Id := 0; UserRequest.UserId := 0;
               UserRequest.Name := "";
               UserRequest.Message := Some "Invalid user request";
               UserRequest.IsInvalid := true |}).
Proof.
  destruct (UserModel.request m) as [r|] eqn:Hreq.
  - destruct (Z_le_gt_dec (UserRequest.UserId r) 0) as [Hle|Hgt].
    + rewrite (validate_user_request_bad_id _ _ Hreq Hle). simpl.
      repeat split; [by intros ? [= <-] | done | done].
    + rewrite (validate_user_request_valid _ _ Hreq Hgt). simpl.
      repeat split; [by intros ? [= <-] | done].
  - rewrite (validate_user_request_no_request _ Hreq). simpl.
    repeat split; done.
Qed.

(** X6. Validating the result of [validate_user_request] again gives the
    same model exactly when the model held a request. A model without one
    is rejected with "Invalid user request" the first time and with
    "Invalid user Id" the second: the request it was given in between has
    [UserId] 0. *)
Theorem validate_user_request_again (m : UserModel.t) :
  (validate_user_request (Some (validate_user_request (Some m))) =
     validate_user_request (Some m)
   ↔ is_Some (UserModel.request m)) ∧
  (UserModel.request m = None →
     UserModel.Message (validate_user_request (Some m)) =
       Some "Invalid user request" ∧
     UserModel.Message
       (validate_user_request (Some (validate_user_request (Some m)))) =
       Some "Invalid user Id" ∧
     UserModel.IsInvalid
       (validate_user_request (Some (validate_user_request (Some m)))) = true).
Proof.
  destruct (UserModel.request m) as [r|] eqn:Hreq.
  - split; [|done]. split; [eauto|]. intros _.
    destruct (Z_le_gt_dec (UserRequest.UserId r) 0) as [Hle|Hgt].
    + rewrite (validate_user_request_bad_id _ _ Hreq Hle).
      by erewrite validate_user_request_bad_id; [| reflexivity | exact Hle].
    + rewrite (validate_user_request_valid _ _ Hreq Hgt).
      by erewrite validate_user_request_valid; [| reflexivity | exact Hgt].
  - rewrite (validate_user_request_no_request _ Hreq).
    split; [|done]. split; [|by intros [? [=]]]. intros [=].
Qed.

Lemma validate_user_model_with_item (m : UserModel.t) (it : UserItem.t) :
  UserModel.item m = Some it → validate_user_model (Some m) = m.
Proof. intros H. unfold validate_user_model. by rewrite H. Qed.

Lemma validate_user_model_no_item (m : UserModel.t) :
  UserModel.item m = None →
  validate_user_model (Some m) =
    {| UserModel.item := Some UserItem.new;
       UserModel.response := UserModel.response m;
       UserModel.request := UserModel.request m;
       UserModel.Message := Some "Invalid user item";
       UserModel.IsInvalid := true |}.
Proof. intros H. unfold validate_user_model. by rewrite H. Qed.

(** X7. [validate_user_model] returns a valid model exactly when it is
    given a model that has an item and is not flagged invalid. A model
    with an item is returned as it is, so a flag set earlier is never
    cleared; a model without one is given a new, empty item. *)
Theorem validate_user_model_valid_iff (model : option UserModel.t) :
  (UserModel.IsInvalid (validate_user_model model) = false ↔
   ∃ m it, model = Some m ∧ UserModel.item m = Some it ∧
           UserModel.IsInvalid m = false) ∧
  (∀ m it, model = Some m → UserModel.item m = Some it →
     validate_user_model model = m) ∧
  (∀ m, model = Some m → UserModel.item m = None →
     UserModel.item (validate_user_model model) = Some UserItem.new ∧
     UserModel.Message (validate_user_model model) = Some "Invalid user item") ∧
  (∀ m, model = Some m → UserModel.IsInvalid m = true →
     UserModel.IsInvalid (validate_user_model model) = true).
Proof.
  destruct model as [m|].
  - destruct (UserModel.item m) as [it|] eqn:Hit.
    + rewrite (validate_user_model_with_item _ _ Hit).
      split; [|split; [|split]].
      * split; [intros H; by exists m, it|].
        by intros (m' & it' & [= <-] & _ & H).
      * by intros m' it' [= <-] _.
      * intros m' [= <-]. congruence.
      * by intros m' [= <-].
    + rewrite (validate_user_model_no_item _ Hit). simpl.
      split; [|split; [|split]].
      * split; [done|]. intros (m' & it' & [= <-] & H & _). congruence.
      * intros m' it' [= <-]. congruence.
      * by intros m' [= <-] _.
      * by intros m' [= <-] _.
  - simpl. split; [|split; [|split]].
    + split; [done|]. by intros (m' & it' & [=] & _).
    + by intros m' it' [=].
    + by intros m' [=].
    + by intros m' [=].
Qed.

(** X8. What [validate_user_request] accepts, [validate_user_model] lets
    through unchanged; and the two in a row end with a valid model exactly
    on the inputs [validate_user_request] accepts. *)
Theorem validate_request_then_model (model : option UserModel.t) :
  (UserModel.IsInvalid
     (validate_user_model (Some (validate_user_request model))) = false
   ↔ acceptable model) ∧
  (acceptable model →
     validate_user_model (Some (validate_user_request model)) =
       validate_user_request model).
Proof.
  assert (acceptable model →
            validate_user_model (Some (validate_user_request model)) =
              validate_user_request model ∧
            UserModel.IsInvalid (validate_user_request model) = false) as Hacc.
  { intros (m & r & -> & Hreq & Hgt).
    rewrite (validate_user_request_valid _ _ Hreq Hgt). split; [|done].
    by eapply validate_user_model_with_item. }
  split; [|by intros H; apply Hacc].
  split.
  - intros Hvalid. destruct model as [m|]; [|done].
    destruct (UserModel.request m) as [r|] eqn:Hreq.
    + destruct (Z_le_gt_dec (UserRequest.UserId r) 0) as [Hle|Hgt].
      * rewrite (validate_user_request_bad_id _ _ Hreq Hle) in Hvalid.
        unfold validate_user_model in Hvalid. simpl in Hvalid.
        by destruct (UserModel.item m).
      * by exists m, r.
    + rewrite (validate_user_request_no_request _ Hreq) in Hvalid.
      unfold validate_user_model in Hvalid. simpl in Hvalid.
      by destruct (UserModel.item m).
  - intros H. destruct (Hacc H) as [-> ?]. done.
Qed.

(** X9. [validate_user_model] gives the same model when it is applied to
    its own result, for every model; not so for [None], where the second
    pass replaces the text "Invalid user model" by "Invalid user item" and
    gives the model an empty item. *)
Theorem validate_user_model_again (model : option UserModel.t) :
  (validate_user_model (Some (validate_user_model model)) =
     validate_user_model model
   ↔ model ≠ None) ∧
  UserModel.Message (validate_user_model None) = Some "Invalid user model" ∧
  UserModel.Message (validate_user_model (Some (validate_user_model None))) =
    Some "Invalid user item" ∧
  UserModel.item (validate_user_model (Some (validate_user_model None))) =
    Some UserItem.new.
Proof.
  split; [|done]. destruct model as [m|].
  - split; [done|]. intros _.
    destruct (UserModel.item m) as [it|] eqn:Hit.
    + rewrite (validate_user_model_with_item _ _ Hit).
      by eapply validate_user_model_with_item.
    + rewrite (validate_user_model_no_item _ Hit).
      by eapply validate_user_model_with_item.
  - split; [|done]. intros [=].
Qed.

(** *** The service *)

(** The response [set_response] attaches to a model flagged invalid. *)
Lemma set_response_invalid (m : UserModel.t) :
  UserModel.IsInvalid m = true →
  UserService.set_response m =
    UserModel.set_response
      (Some {| UserResponse.Id := 0; UserResponse.UserId := 0;
               UserResponse.Name := "";
               UserResponse.Message := UserModel.Message m;
               UserResponse.IsInvalid := true |}) m.
Proof. intros H. unfold UserService.set_response. by rewrite H. Qed.

(** The response it attaches to a model that is not. *)
Lemma set_response_valid (m : UserModel.t) :
  UserModel.IsInvalid m = false →
  UserService.set_response m =
    UserModel.set_response
      (Some {| UserResponse.Id := 0;
               UserResponse.UserId :=
                 match UserModel.item m with
                 | Some it => UserItem.UserId it
                 | None => 0
                 end;
               UserResponse.Name :=
                 match UserModel.item m with
                 | Some it => UserItem.Name it
                 | None => ""
                 end;
               UserResponse.Message := Some "User created successfully";
               UserResponse.IsInvalid := false |}) m.
Proof. intros H. unfold UserService.set_response. by rewrite H. Qed.

(** X10. The service does not consult the repository for an input its
    validation flags: no model, a model without an item, or a model
    already flagged invalid. Whatever the repository, it returns the
    validated model with a response that is flagged invalid, carries the
    model's message and no user data. *)
Theorem service_rejects_before_repository
    (repo1 repo2 : UserModel.t → string + UserModel.t)
    (model : option UserModel.t) :
  (model = None ∨
   ∃ m, model = Some m ∧
        (UserModel.item m = None ∨ UserModel.IsInvalid m = true)) →
  UserService.create_user repo1 model = UserService.create_user repo2 model ∧
  UserService.create_user repo1 model =
    inr (UserModel.set_response
           (Some {| UserResponse.Id := 0; UserResponse.UserId := 0;
                    UserResponse.Name := "";
                    UserResponse.Message :=
                      UserModel.Message (validate_user_model model);
                    UserResponse.IsInvalid := true |})
           (validate_user_model model)).
Proof.
  intros Hunfit.
  assert (UserModel.IsInvalid (validate_user_model model) = true) as Hinv.
  { destruct Hunfit as [-> | (m & -> & [Hit | Hflag])]; [done | |].
    - by rewrite (validate_user_model_no_item _ Hit).
    - destruct (UserModel.item m) as [it|] eqn:Hit.
      + by rewrite (validate_user_model_with_item _ _ Hit).
      + by rewrite (validate_user_model_no_item _ Hit). }
  unfold UserService.create_user. rewrite Hinv.
  by rewrite (set_response_invalid _ Hinv).
Qed.

Lemma service_rejects_before_repository_witness :
  let model := Some (UserModel.set_IsInvalid true
                       (UserModel.set_item (Some UserItem.new) UserModel.new)) in
  let repo1 := λ m : UserModel.t, inr m in
  let repo2 := λ _ : UserModel.t, inl "database is down" in
  (model = None ∨
   ∃ m, model = Some m ∧
        (UserModel.item m = None ∨ UserModel.IsInvalid m = true)) ∧
  UserService.create_user repo1 model = UserService.create_user repo2 model ∧
  UserService.create_user repo1 model =
    inr (UserModel.set_response
           (Some {| UserResponse.Id := 0; UserResponse.UserId := 0;
                    UserResponse.Name := "";
                    UserResponse.Message :=
                      UserModel.Message (validate_user_model model);
                    UserResponse.IsInvalid := true |})
           (validate_user_model model)).
Proof.
  assert (Some (UserModel.set_IsInvalid true
                  (UserModel.set_item (Some UserItem.new) UserModel.new)) = None ∨
          ∃ m, Some (UserModel.set_IsInvalid true
                       (UserModel.set_item (Some UserItem.new) UserModel.new)) =
                 Some m ∧
               (UserModel.item m = None ∨ UserModel.IsInvalid m = true)) as H.
  { right. eexists. split; [reflexivity|]. right. reflexivity. }
  split; [exact H|].
  exact (service_rejects_before_repository
           (λ m, inr m) (λ _, inl "database is down") _ H).
Defined.

(** X11. Whenever the service returns, the model it returns has a
    response whose [IsInvalid] is the model's own and whose [Id] is 0: the
    service never reports the [Id] of the user. A response flagged invalid
    carries the model's message and no user data; one that is not carries
    "User created successfully" and the [UserId] and [Name] of the model's
    item. What the repository raises, the service raises. *)
Theorem service_response_mirrors_model
    (repo : UserModel.t → string + UserModel.t)
    (model : option UserModel.t) (m' : UserModel.t) :
  UserService.create_user repo model = inr m' →
  ∃ r,
    UserModel.response m' = Some r ∧
    UserResponse.IsInvalid r = UserModel.IsInvalid m' ∧
    UserResponse.Id r = 0 ∧
    (UserModel.IsInvalid m' = true →
       UserResponse.Message r = UserModel.Message m' ∧
       UserResponse.UserId r = 0 ∧ UserResponse.Name r = "") ∧
    (UserModel.IsInvalid m' = false →
       UserResponse.Message r = Some "User created successfully" ∧
       ∀ it, UserModel.item m' = Some it →
             UserResponse.UserId r = UserItem.UserId it ∧
             UserResponse.Name r = UserItem.Name it).
Proof.
  assert (∀ m, ∃ r,
            UserModel.response (UserService.set_response m) = Some r ∧
            UserResponse.IsInvalid r = UserModel.IsInvalid (UserService.set_response m) ∧
            UserResponse.Id r = 0 ∧
            (UserModel.IsInvalid (UserService.set_response m) = true →
               UserResponse.Message r = UserModel.Message (UserService.set_response m) ∧
               UserResponse.UserId r = 0 ∧ UserResponse.Name r = "") ∧
            (UserModel.IsInvalid (UserService.set_response m) = false →
               UserResponse.Message r = Some "User created successfully" ∧
               ∀ it, UserModel.item (UserService.set_response m) = Some it →
                     UserResponse.UserId r = UserItem.UserId it ∧
                     UserResponse.Name r = UserItem.Name it)) as Hset.
  { intros m. destruct (UserModel.IsInvalid m) eqn:Hflag.
    - rewrite (set_response_invalid _ Hflag). simpl. eexists. split; [done|].
      simpl. rewrite Hflag. repeat split; done.
    - rewrite (set_response_valid _ Hflag). simpl. eexists. split; [done|].
      simpl. rewrite Hflag. split; [done|]. split; [done|]. split; [done|].
      intros _. split; [done|]. intros it Hit. by rewrite Hit. }
  unfold UserService.create_user.
  destruct (UserModel.IsInvalid (validate_user_model model)).
  - intros [= <-]. apply Hset.
  - destruct (repo (validate_user_model model)) as [ex|m1]; [done|].
    intros [= <-]. apply Hset.
Qed.

Lemma service_response_mirrors_model_witness :
  let it := {| UserItem.Id := 9; UserItem.UserId := 42; UserItem.Name := "Ann";
               UserItem.Message := None; UserItem.IsInvalid := false |} in
  let model := UserModel.set_item (Some it) UserModel.new in
  let repo := λ m : UserModel.t, inr m in
  UserService.create_user repo (Some model) =
    inr (UserService.set_response model) ∧
  ∃ r,
    UserModel.response (UserService.set_response model) = Some r ∧
    UserResponse.IsInvalid r = UserModel.IsInvalid (UserService.set_response model) ∧
    UserResponse.Id r = 0 ∧
    (UserModel.IsInvalid (UserService.set_response model) = true →
       UserResponse.Message r = UserModel.Message (UserService.set_response model) ∧
       UserResponse.UserId r = 0 ∧ UserResponse.Name r = "") ∧
    (UserModel.IsInvalid (UserService.set_response model) = false →
       UserResponse.Message r = Some "User created successfully" ∧
       ∀ it', UserModel.item (UserService.set_response model) = Some it' →
              UserResponse.UserId r = UserItem.UserId it' ∧
              UserResponse.Name r = UserItem.Name it').
Proof.
  intros it model repo.
  assert (UserService.create_user repo (Some model) =
            inr (UserService.set_response model)) as Hrun by reflexivity.
  split; [exact Hrun|].
  exact (service_response_mirrors_model repo (Some model) _ Hrun).
Defined.

(** *** The handler *)

(** X12. The handler answers a request whose [UserId] is 0 or negative
    itself, whatever the service is: the response is flagged invalid with
    the text "Invalid user Id", and carries nothing of the request (its
    [Id] and [UserId] are 0 and its [Name] is empty). *)
Theorem handler_rejects_before_service
    (service : UserModel.t → string + UserModel.t) (request : UserRequest.t) :
  UserRequest.UserId request <= 0 →
  ApiUser.create_user service request =
    ApiUser.Responded
      (Some {| UserResponse.Id := 0; UserResponse.UserId := 0;
               UserResponse.Name := "";
               UserResponse.Message := Some "Invalid user Id";
               UserResponse.IsInvalid := true |}).
Proof.
  intros Hle. unfold ApiUser.create_user.
  by erewrite validate_user_request_bad_id; [| reflexivity | exact Hle].
Qed.

Lemma handler_rejects_before_service_witness :
  let request := {| UserRequest.Id := 3; UserRequest.UserId := -1;
                    UserRequest.Name := "Ann"; UserRequest.Message := None;
                    UserRequest.IsInvalid := false |} in
  let service := λ _ : UserModel.t, inl "unreachable" in
  UserRequest.UserId request <= 0 ∧
  ApiUser.create_user service request =
    ApiUser.Responded
      (Some {| UserResponse.Id := 0; UserResponse.UserId := 0;
               UserResponse.Name := "";
               UserResponse.Message := Some "Invalid user Id";
               UserResponse.IsInvalid := true |}).
Proof.
  intros request service.
  assert (UserRequest.UserId request <= 0) as Hle by (simpl; lia).
  split; [exact Hle|].
  exact (handler_rejects_before_service service request Hle).
Defined.

(** *** The repository *)

Lemma repository_no_item
    (session : UserEntity.t → string + UserEntity.t) (model : UserModel.t) :
  UserModel.item model = None →
  UserRepository.create_user (Some session) model =
    Some (UserRepository.set_inv_msg model UserRepository.no_item_error).
Proof. intros H. unfold UserRepository.create_user. by rewrite H. Qed.

Lemma repository_with_item
    (session : UserEntity.t → string + UserEntity.t)
    (model : UserModel.t) (it : UserItem.t) :
  UserModel.item model = Some it →
  UserRepository.create_user (Some session) model =
    match session (UserRepository.entity_sent it) with
    | inl ex => Some (UserRepository.set_inv_msg model ex)
    | inr e =>
        it' ← MapUser.UserEntityToItem e;
        Some (UserModel.set_item (Some it') model)
    end.
Proof. intros H. unfold UserRepository.create_user. by rewrite H. Qed.

(** X14. The [Id] a caller puts in the item never reaches the database:
    the session is only ever handed an entity without [Id], so two
    sessions that treat such entities alike give the same result. *)
Theorem repository_ignores_item_id
    (session1 session2 : UserEntity.t → string + UserEntity.t)
    (model : UserModel.t) :
  (∀ e, UserEntity.Id e = None → session1 e = session2 e) →
  UserRepository.create_user (Some session1) model =
    UserRepository.create_user (Some session2) model.
Proof.
  intros Hsame. destruct (UserModel.item model) as [it|] eqn:Hit.
  - rewrite !(repository_with_item _ _ _ Hit). by rewrite Hsame.
  - by rewrite !(repository_no_item _ _ Hit).
Qed.

Lemma repository_ignores_item_id_witness :
  let session1 := λ e : UserEntity.t, inr (UserEntity.set_Id (Some 1) e) in
  let session2 := λ e : UserEntity.t,
    match UserEntity.Id e with
    | None => inr (UserEntity.set_Id (Some 1) e)
    | Some _ => inl "duplicate key"
    end in
  let model :=
    UserModel.set_item
      (Some (UserItem.set_Id 77 (UserItem.set_Name "Ann" UserItem.new)))
      UserModel.new in
  (∀ e, UserEntity.Id e = None → session1 e = session2 e) ∧
  UserRepository.create_user (Some session1) model =
    UserRepository.create_user (Some session2) model.
Proof.
  intros session1 session2 model.
  assert (∀ e, UserEntity.Id e = None → session1 e = session2 e) as Hsame.
  { intros e He. unfold session1, session2. by rewrite He. }
  split; [exact Hsame|].
  exact (repository_ignores_item_id session1 session2 model Hsame).
Defined.

(** X15. When the session stores the entity and reads it back with the
    [Id] the database gave it, the model comes back with an item that has
    that [Id] and the [UserId] and [Name] that were sent; the item's own
    [Id], [Message] and [IsInvalid] are not kept, and the rest of the
    model is as it was. *)
Theorem repository_stores_and_reads_back
    (session : UserEntity.t → string + UserEntity.t)
    (model : UserModel.t) (it : UserItem.t) (i : Z) :
  UserModel.item model = Some it →
  session (UserRepository.entity_sent it) = inr (UserEntity.set_Id (Some i) (UserRepository.entity_sent it)) →
  UserRepository.create_user (Some session) model =
    Some (UserModel.set_item
            (Some {| UserItem.Id := i;
                     UserItem.UserId := UserItem.UserId it;
                     UserItem.Name := UserItem.Name it;
                     UserItem.Message := None;
                     UserItem.IsInvalid := false |}) model).
Proof.
  intros Hit Hsession. rewrite (repository_with_item _ _ _ Hit), Hsession.
  reflexivity.
Qed.

Lemma repository_stores_and_reads_back_witness :
  let session := λ e : UserEntity.t, inr (UserEntity.set_Id (Some 5) e) in
  let it := {| UserItem.Id := 77; UserItem.UserId := 42; UserItem.Name := "Ann";
               UserItem.Message := Some "note"; UserItem.IsInvalid := true |} in
  let model := UserModel.set_item (Some it) UserModel.new in
  UserModel.item model = Some it ∧
  session (UserRepository.entity_sent it) = inr (UserEntity.set_Id (Some 5) (UserRepository.entity_sent it)) ∧
  UserRepository.create_user (Some session) model =
    Some (UserModel.set_item
            (Some {| UserItem.Id := 5;
                     UserItem.UserId := UserItem.UserId it;
                     UserItem.Name := UserItem.Name it;
                     UserItem.Message := None;
                     UserItem.IsInvalid := false |}) model).
Proof.
  intros session it model.
  assert (UserModel.item model = Some it) as Hit by reflexivity.
  assert (session (UserRepository.entity_sent it) =
            inr (UserEntity.set_Id (Some 5) (UserRepository.entity_sent it))) as Hs
    by reflexivity.
  split; [exact Hit|]. split; [exact Hs|].
  exact (repository_stores_and_reads_back session model it 5 Hit Hs).
Defined.

End UsersMore.
